(** * Goldbach counts and LPF symmetry for primorials

    A shallow embedding of the three scripts of the repository

    - [goldbach_count.py]: Eratosthenes sieve, prime lists, primorials and
      the exact Goldbach count;
    - [lpf_symmetry_verification.py]: least prime factor and the
      left/right LPF frequency scan;
    - [amplification_testing.py]: the sampling Goldbach counter and the
      amplification figures computed from its count.

    Python integers are unbounded and are modelled by [Z]; a [bytearray]
    is a [list Z] of bytes; a raised exception is a value of the [result]
    monad; a [while] loop carries fuel and is proved to need only a
    bounded amount of it; the doubles of the amplification figures are
    the abstract interface [Double.Ops]. *)

From Stdlib Require Import ZArith Znumtheory Lia QArith Qcanon.
From stdpp Require Import base list sorting gmap.

Open Scope Z_scope.

(** ** Python primitives *)

Module Py.

(** The exceptions the modelled code can raise. *)
Inductive exn : Set :=
| IndexError
| ValueError
| ZeroDivisionError
| TypeError.

(** Outcome of a call: a value or a raised exception. *)
Inductive result (A : Type) : Type :=
| Ok (a : A)
| Raise (e : exn).
Global Arguments Ok {A} a.
Global Arguments Raise {A} e.

Global Instance result_ret : MRet result := λ A a, Ok a.
Global Instance result_bind : MBind result := λ A B f m,
  match m with
  | Ok a => f a
  | Raise e => Raise e
  end.

(** [for x in xs: s = body(s, x)] with exceptions propagating. *)
Fixpoint for_in {A S : Type} (xs : list A) (body : S → A → result S) (s : S)
  : result S :=
  match xs with
  | [] => Ok s
  | x :: xs' => s' ← body s x; for_in xs' body s'
  end.

(** [range(start, stop, step)] for a positive [step]. *)
Definition range (start stop step : Z) : list Z :=
  (λ j, start + step * j) <$> seqZ 0 ((stop - start + step - 1) `div` step).

(** Truth value of an integer. *)
Definition truthy (v : Z) : bool := negb (v =? 0).

(** Position denoted by index [i] in a sequence of length [len]:
    negative indices count from the end. *)
Definition position (len : nat) (i : Z) : Z :=
  if i <? 0 then i + Z.of_nat len else i.

(** [l[i]], raising [IndexError] out of range. *)
Definition getitem (l : list Z) (i : Z) : result Z :=
  let j := position (length l) i in
  if j <? 0 then Raise IndexError
  else match l !! Z.to_nat j with
       | Some v => Ok v
       | None => Raise IndexError
       end.

(** [l[i] = v], raising [IndexError] out of range. *)
Definition setitem (l : list Z) (i : Z) (v : Z) : result (list Z) :=
  let j := position (length l) i in
  if (0 <=? j) && (j <? Z.of_nat (length l))
  then Ok (<[Z.to_nat j := v]> l)
  else Raise IndexError.

(** [l[lo:hi] = new] for [0 <= lo <= hi] (no exception: slices clamp). *)
Definition setslice (l : list Z) (lo hi : nat) (new : list Z) : list Z :=
  take lo l ++ new ++ drop hi l.

(** [bytearray(b) * n]: [n] copies of the byte, none for [n <= 0]. *)
Definition bytes_times (b : Z) (n : Z) : list Z := replicate (Z.to_nat n) b.

End Py.
Import Py.

(** ** goldbach_count.py *)

(** [sieve_is_prime(n)]: the primality table [is_prime[0..n]]. *)
Definition sieve_is_prime (n : Z) : result (list Z) :=
  if n <? 1 then Ok (bytes_times 0 (n + 1))
  else
    let is_prime := bytes_times 1 (n + 1) in
    let is_prime := setslice is_prime 0 2 [0; 0] in
    is_prime ← for_in (range 4 (n + 1) 2) (λ t i, setitem t i 0) is_prime;
    let limit := Z.sqrt n in
    is_prime ← for_in (range 3 (limit + 1) 2)
      (λ t p,
         v ← getitem t p;
         if truthy v
         then for_in (range (p * p) (n + 1) p) (λ t x, setitem t x 0) t
         else Ok t)
      is_prime;
    setitem is_prime 2 (if 2 <=? n then 1 else 0).

(** [primes_up_to(n, is_prime)]: the primes [<= n], read off the table
    (sieved here when the caller passes none). *)
Definition primes_up_to (n : Z) (is_prime : option (list Z)) : result (list Z) :=
  if n <? 2 then Ok []
  else
    is_prime ← match is_prime with
               | None => sieve_is_prime n
               | Some t => Ok t
               end;
    odd ← for_in (range 3 (n + 1) 2)
            (λ acc i, v ← getitem is_prime i;
                      Ok (if truthy v then acc ++ [i] else acc))
            [];
    Ok ([2] ++ odd).

(** The [while True] loop of [first_k_primes]: sieve up to [bound], return
    the first [k] primes if there are that many, else double the bound.
    [None] means the fuel ran out before the loop returned. *)
Fixpoint first_k_primes_loop (fuel : nat) (k bound : Z)
  : option (result (list Z)) :=
  match fuel with
  | O => None
  | S fuel' =>
      match is_prime ← sieve_is_prime bound;
            primes_up_to bound (Some is_prime) with
      | Raise e => Some (Raise e)
      | Ok ps =>
          if k <=? Z.of_nat (length ps)
          then Some (Ok (take (Z.to_nat k) ps))
          else first_k_primes_loop fuel' k (bound * 2)
      end
  end.

(** [first_k_primes(k)].  For [k >= 6] the starting bound is
    [int(k * (math.log(k) + math.log(math.log(k)))) + 10]; the truncated
    floating-point product is the parameter [estimate] (it is positive
    for every such [k] a double can hold). *)
Definition first_k_primes (estimate : Z → Z) (fuel : nat) (k : Z)
  : option (result (list Z)) :=
  if k <=? 0 then Some (Ok [])
  else
    let bound := if k <? 6 then 15 else estimate k + 10 in
    first_k_primes_loop fuel k bound.

(** [primorial_from_primes(ps)]: the running product, starting from 1. *)
Definition primorial_from_primes (ps : list Z) : Z :=
  foldl (λ n p, n * p) 1 ps.

(** [goldbach_count(N, is_prime)]: odd [N] and [N < 4] give 0 at once;
    otherwise [p = 2] is tried first and then the odd [p <= N // 2]. *)
Definition goldbach_count (N : Z) (is_prime : list Z) : result Z :=
  if (N <? 4) || (N `mod` 2 =? 1) then Ok 0
  else
    let half := N `div` 2 in
    count ← (if 2 <=? half
             then a ← getitem is_prime 2;
                  if truthy a
                  then b ← getitem is_prime (N - 2);
                       Ok (if truthy b then 1 else 0)
                  else Ok 0
             else Ok 0);
    for_in (range 3 (half + 1) 2)
      (λ count p,
         a ← getitem is_prime p;
         if truthy a
         then b ← getitem is_prime (N - p);
              Ok (if truthy b then count + 1 else count)
         else Ok count)
      count.

(** ** The prime lists the contracts speak about *)

(** Primality is decidable, so prime lists can be filtered. *)
#[global] Instance prime_decision (p : Z) : Decision (Z.prime p) :=
  match prime_dec p with
  | left H => left (proj2 (prime_alt p) H)
  | right H => right (λ H', H (proj1 (prime_alt p) H'))
  end.

(** [ps] is the list of the first [k] primes, in increasing order. *)
Definition is_first_k_primes (k : nat) (ps : list Z) : Prop :=
  length ps = k ∧
  StronglySorted Z.lt ps ∧
  (∀ p, p ∈ ps → Z.prime p) ∧
  (∀ p q, p ∈ ps → Z.prime q → q < p → q ∈ ps).

(** [t] is the primality table of [0..n]: [n + 1] bytes, 1 at the primes
    and 0 elsewhere. *)
Definition is_prime_table (n : Z) (t : list Z) : Prop :=
  length t = Z.to_nat (n + 1) ∧
  ∀ i, 0 ≤ i ≤ n →
       t !! Z.to_nat i = Some (if decide (Z.prime i) then 1 else 0).

(** Loop invariant of the sieve, once the even numbers and the odd
    candidates [ds] have been processed: an entry is 1 exactly when no
    processed [d] divides it from its square on. *)
Definition sieved (n : Z) (ds : list Z) (t : list Z) : Prop :=
  length t = Z.to_nat (n + 1) ∧
  ∀ i, 0 ≤ i ≤ n →
    ∃ v, t !! Z.to_nat i = Some v ∧ (v = 0 ∨ v = 1) ∧
         (v = 1 ↔ 2 ≤ i ∧ ∀ d, d = 2 ∨ d ∈ ds → (d | i) → i < d * d).

(** [t] answers primality correctly on [0..n]; any non-zero byte counts
    as true and the table may be longer. *)
Definition correct_on (n : Z) (t : list Z) : Prop :=
  ∀ i, 0 ≤ i ≤ n →
       ∃ v, t !! Z.to_nat i = Some v ∧ (truthy v = true ↔ Z.prime i).

(** The primes [<= n] in increasing order, for [n >= 2]: what
    [primes_up_to] reads off a correct table. *)
Definition primes_list (n : Z) : list Z :=
  2 :: filter Z.prime (range 3 (n + 1) 2).

(** Product of a list of integers. *)
Definition list_prod (ps : list Z) : Z := foldr Z.mul 1 ps.

(** Number of Goldbach representations [N = p + q] with [p <= N // 2]:
    the reference value of [G(N)]. *)
Definition goldbach_pairs (N : Z) : list Z :=
  filter (λ p, Z.prime p ∧ Z.prime (N - p)) (seqZ 0 (N `div` 2 + 1)).

(** ** The sympy functions the scripts import *)

Module Sympy.

(** [isprime], [nextprime], [factorint] (a dict from prime factor to
    multiplicity), [prime] (the k-th prime) and [primorial]. *)
Class Ops : Type := {
  isprime : Z → bool;
  nextprime : Z → Z;
  factorint : Z → gmap Z nat;
  prime : Z → result Z;
  primorial : Z → result Z;
}.

(** What the scripts rely on, as documented by sympy ([isprime] is
    taken to be exact, as it is below 2^64). *)
Class Laws (O : Ops) : Prop := {
  isprime_spec n : isprime n = true ↔ Z.prime n;
  nextprime_spec n :
    n < nextprime n ∧ Z.prime (nextprime n) ∧
    ∀ q, Z.prime q → n < q → nextprime n ≤ q;
  factorint_spec n p :
    2 ≤ n → p ∈ dom (factorint n) ↔ Z.prime p ∧ (p | n);
  prime_spec k :
    1 ≤ k →
    ∃ ps p, is_first_k_primes (Z.to_nat k) ps ∧ last ps = Some p ∧
            prime k = Ok p;
  primorial_spec k :
    1 ≤ k →
    ∃ ps, is_first_k_primes (Z.to_nat k) ps ∧
          primorial k = Ok (list_prod ps);
}.

End Sympy.

(** ** lpf_symmetry_verification.py *)

(** [min(xs)]: [ValueError] on an empty sequence. *)
Definition py_min (xs : list Z) : result Z :=
  match xs with
  | [] => Raise ValueError
  | x :: xs' => Ok (foldl Z.min x xs')
  end.

(** [lpf(n)]: [None] for [n <= 1], [n] itself when prime, else the least
    key of the factorisation. *)
Definition lpf `{Sympy.Ops} (n : Z) : result (option Z) :=
  if n <=? 1 then Ok None
  else if Sympy.isprime n then Ok (Some n)
  else
    let factors := Sympy.factorint n in
    m ← py_min (elements (dom factors));
    Ok (Some m).

(** [collections.Counter(xs)]: occurrences of each element. *)
Definition Counter (xs : list (option Z)) : gmap (option Z) nat :=
  foldl (λ m x, <[x := S (default O (m !! x))]> m) ∅ xs.

(** [sum(counts.values())]. *)
Definition sum_values (counts : gmap (option Z) nat) : Z :=
  Z.of_nat (map_fold (λ _ v acc, (v + acc)%nat) O counts).

(** A Python number: [ratio] is the integer [0] or a float quotient.
    True division of integers is the correctly rounded quotient; it is
    modelled by the exact quotient, of which [0.0] and [1.0] are images. *)
Inductive number : Type :=
| Int (z : Z)
| Float (q : Qc).

(** The fields of the returned dict that do not depend on the display
    table ([lpf_data] is report formatting and is left out). *)
Record symmetry := {
  sym_k : Z;
  sym_N : Z;
  pairs : Z;
  ratio : number;
  left_counts : gmap (option Z) nat;
  right_counts : gmap (option Z) nat;
}.

(** The scan [for x in range(3, N//2)] collecting [lpf(x)] and
    [lpf(N - x)].  In verbose mode the first ten rows are formatted with
    [:3d], which raises on [None]. *)
Definition lpf_scan `{Sympy.Ops} (N : Z) (verbose : bool)
  : result (list (option Z) * list (option Z)) :=
  for_in (range 3 (N `div` 2) 1)
    (λ '(left_lpfs, right_lpfs) x,
       let y := N - x in
       lpf_x ← lpf x;
       lpf_y ← lpf y;
       let left_lpfs := left_lpfs ++ [lpf_x] in
       let right_lpfs := right_lpfs ++ [lpf_y] in
       if verbose && (Z.of_nat (length left_lpfs) <=? 10) &&
          (bool_decide (lpf_x = None) || bool_decide (lpf_y = None))
       then Raise TypeError
       else Ok (left_lpfs, right_lpfs))
    ([], []).

(** [sorted(set(left) | set(right))], kept as the set of keys: sorting
    raises when [None] has to be compared with an integer. *)
Definition all_lpfs (left right : gmap (option Z) nat)
  : result (gset (option Z)) :=
  let keys := dom left ∪ dom right in
  if bool_decide (None ∈ keys) && bool_decide (1 < size keys)%nat
  then Raise TypeError
  else Ok keys.

(** [verify_lpf_symmetry(k, verbose)].  The verbose report divides by
    [min(30, len(all_lpfs))]. *)
Definition verify_lpf_symmetry `{Sympy.Ops} (k : Z) (verbose : bool)
  : result symmetry :=
  N ← Sympy.primorial k;
  p_k ← Sympy.prime k;
  '(left_lpfs, right_lpfs) ← lpf_scan N verbose;
  let left_counts := Counter left_lpfs in
  let right_counts := Counter right_lpfs in
  keys ← all_lpfs left_counts right_counts;
  let total_left := sum_values left_counts in
  let total_right := sum_values right_counts in
  let overall_ratio :=
    if 0 <? total_right
    then Float (Q2Qc (inject_Z total_left) / Q2Qc (inject_Z total_right))
    else Int 0 in
  _ ← (if verbose && (Z.min 30 (Z.of_nat (size keys)) =? 0)
       then Raise ZeroDivisionError
       else Ok ());
  Ok {| sym_k := k; sym_N := N; pairs := total_left; ratio := overall_ratio;
        left_counts := left_counts; right_counts := right_counts |}.

(** ** amplification_testing.py *)

(** [max_primes and tested >= max_primes]. *)
Definition cap_reached (max_primes : option Z) (tested : Z) : bool :=
  match max_primes with
  | None => false
  | Some m => truthy m && (m <=? tested)
  end.

(** The [while p <= p_end] loop; [None] when the fuel runs out. *)
Fixpoint sampling_loop `{Sympy.Ops} (fuel : nat) (N p_end : Z)
    (max_primes : option Z) (p count tested : Z) : option (Z * Z) :=
  match fuel with
  | O => None
  | S fuel' =>
      if p <=? p_end then
        if negb (Sympy.isprime p)
        then sampling_loop fuel' N p_end max_primes (Sympy.nextprime p)
                           count tested
        else
          let q := N - p in
          let count := if (0 <? q) && Sympy.isprime q
                       then count + 1 else count in
          let tested := tested + 1 in
          if cap_reached max_primes tested then Some (count, tested)
          else sampling_loop fuel' N p_end max_primes (Sympy.nextprime p)
                             count tested
      else Some (count, tested)
  end.

(** [count_goldbach_representations(N, p_start, p_end, max_primes)]. *)
Definition count_goldbach_representations `{Sympy.Ops} (fuel : nat)
    (N p_start p_end : Z) (max_primes : option Z)
  : option (result (Z * Z)) :=
  if negb (N `mod` 2 =? 0) then Some (Raise ValueError)
  else Ok <$> sampling_loop fuel N p_end max_primes p_start 0 0.

(** *** Floats

    The amplification figures are doubles: decimal literals, [int]
    operands converted by the arithmetic, products and quotients,
    [math.log] of an [int], [math.exp], [float('inf')] and the tests
    [y == 0] (of the division) and [x > 0].  The operations are kept
    abstract; the laws are the three facts about them the script relies
    on. *)

Module Double.

Class Ops : Type := {
  float : Type;
  (** the double a decimal literal denotes *)
  lit : Q → float;
  (** an [int] operand of a float operation *)
  of_int : Z → float;
  (** [float('inf')] *)
  inf : float;
  mul : float → float → float;
  (** [x / y] for [y != 0] *)
  div : float → float → float;
  (** [y == 0] *)
  is_zero : float → bool;
  (** [x > 0] *)
  gt0 : float → bool;
  (** [math.log(n)] for an [int] [n > 0] *)
  log : Z → float;
  exp : float → float;
}.

Class Laws (F : Ops) : Prop := {
  (** [0.0 > 0] is false *)
  gt0_zero : gt0 (lit 0) = false;
  (** [x > 0] excludes [x == 0] *)
  gt0_nonzero x : gt0 x = true → is_zero x = false;
  (** [math.log(n)] is not zero from [n = 3] on *)
  log_nonzero n : 3 ≤ n → is_zero (log n) = false;
}.

End Double.

(** [x / y]: a float division by zero raises. *)
Definition truediv `{Double.Ops} (x y : Double.float)
  : result Double.float :=
  if Double.is_zero y then Raise ZeroDivisionError else Ok (Double.div x y).

(** [math.log(n)]: a math domain error outside [n > 0]. *)
Definition math_log `{Double.Ops} (n : Z) : result Double.float :=
  if n <=? 0 then Raise ValueError else Ok (Double.log n).

(** [theoretical_baseline(N, num_primes)]. *)
Definition theoretical_baseline `{Double.Ops} (N num_primes : Z)
  : result Double.float :=
  let C := Double.lit 1.32 in
  if N <=? 2 then Ok (Double.lit 0)
  else
    l ← math_log N;
    truediv (Double.mul C (Double.of_int num_primes)) l.

(** The dict [test_primorial_amplification] returns, without its ['time']
    entry (the wall-clock time of the run). *)
Record amplification_result `{Double.Ops} := {
  amp_k : Z;
  amp_N : Z;
  p_k : Z;
  primes_tested : Z;
  representations : Z;
  expected : Double.float;
  amplification : Double.float;
  theoretical_amplification : Double.float;
  success : bool;
}.

(** What [test_primorial_amplification] computes from the count
    [(actual_count, tested)]: the baseline, the two amplification figures,
    the success flag and the dict returned. *)
Definition amplification_summary `{Double.Ops}
    (k N p_k actual_count tested : Z) : result amplification_result :=
  expected ← theoretical_baseline N tested;
  amplification ←
    (if Double.gt0 expected
     then truediv (Double.of_int actual_count) expected
     else Ok Double.inf);
  let gamma := Double.lit 0.5772156649 in
  l ← math_log p_k;
  let theoretical_amp := Double.mul (Double.exp gamma) l in
  let success := bool_decide (1 ≤ actual_count) in
  Ok {| amp_k := k; amp_N := N; p_k := p_k;
        primes_tested := tested; representations := actual_count;
        expected := expected; amplification := amplification;
        theoretical_amplification := theoretical_amp;
        success := success |}.

(** [test_primorial_amplification(k, num_samples, lambda_factor)]; [None]
    when the fuel of the sampling loop runs out. *)
Definition test_primorial_amplification `{Sympy.Ops} `{Double.Ops}
    (fuel : nat) (k num_samples lambda_factor : Z)
  : option (result amplification_result) :=
  match (N ← Sympy.primorial k;
         p_k ← Sympy.prime k;
         p_start ← Sympy.prime (k + 1);
         Ok (N, p_k, p_start)) with
  | Raise e => Some (Raise e)
  | Ok (N, p_k, p_start) =>
      let p_end := lambda_factor * p_start in
      match count_goldbach_representations fuel N p_start p_end
              (Some num_samples) with
      | None => None
      | Some (Raise e) => Some (Raise e)
      | Some (Ok (actual_count, tested)) =>
          Some (amplification_summary k N p_k actual_count tested)
      end
  end.


(** ** A reference implementation of the sympy functions

    Trial division and search: it shows that the contract [Sympy.Laws] can
    be met, and runs the scripts on small inputs. *)

Module Reference.

Definition isprime (n : Z) : bool :=
  (1 <? n) && forallb (λ d, negb (n `mod` d =? 0)) (seqZ 2 (n - 2)).

(** First prime among the [fuel] candidates [c, c + 1, ...]: [inl] the
    prime found, or [inr] the candidate the search stopped at.  The fuel
    is binary so that a factorial amount of it costs nothing. *)
Fixpoint search_prime (fuel : positive) (c : Z) : Z + Z :=
  match fuel with
  | xH => if isprime c then inl c else inr (c + 1)
  | xO fuel' =>
      match search_prime fuel' c with
      | inl r => inl r
      | inr c' => search_prime fuel' c'
      end
  | xI fuel' =>
      if isprime c then inl c
      else match search_prime fuel' (c + 1) with
           | inl r => inl r
           | inr c' => search_prime fuel' c'
           end
  end.

Definition factorial (n : Z) : Z := list_prod (seqZ 1 n).

(** Euclid: a prime lies in [(n, n! + 1]]. *)
Definition nextprime (n : Z) : Z :=
  if n <? 2 then 2
  else match search_prime (Z.to_pos (factorial n)) (n + 1) with
       | inl r => r
       | inr c => c
       end.

Fixpoint multiplicity (fuel : nat) (p n : Z) : nat :=
  match fuel with
  | O => O
  | S fuel' =>
      if n `mod` p =? 0 then S (multiplicity fuel' p (n `div` p)) else O
  end.

Definition factorint (n : Z) : gmap Z nat :=
  list_to_map
    ((λ p, (p, multiplicity (Z.to_nat n) p n)) <$>
     filter (λ p, isprime p = true ∧ n `mod` p = 0) (seqZ 2 (n - 1))).

(** The [k] primes that follow [p]. *)
Fixpoint primes_after (k : nat) (p : Z) : list Z :=
  match k with
  | O => []
  | S k' => let q := nextprime p in q :: primes_after k' q
  end.

Definition prime (k : Z) : result Z :=
  if k <? 1 then Raise ValueError
  else match last (primes_after (Z.to_nat k) 1) with
       | Some p => Ok p
       | None => Raise ValueError
       end.

Definition primorial (k : Z) : result Z :=
  if k <? 1 then Raise ValueError
  else Ok (list_prod (primes_after (Z.to_nat k) 1)).

#[export] Instance ops : Sympy.Ops := {|
  Sympy.isprime := isprime;
  Sympy.nextprime := nextprime;
  Sympy.factorint := factorint;
  Sympy.prime := prime;
  Sympy.primorial := primorial;
|}.

End Reference.

(** ** A stand-in for the floats

    Rationals with an infinity, the binary logarithm rounded down for
    [math.log] and [1 + x] for [math.exp]: crude as arithmetic, but it
    shows that the laws [Double.Laws] can be met, and runs the script on
    small inputs. *)

Module Rational.

Inductive t := Fin (q : Qc) | Inf.

Definition mul (x y : t) : t :=
  match x, y with
  | Fin a, Fin b => Fin (a * b)
  | _, _ => Inf
  end.

Definition div (x y : t) : t :=
  match x, y with
  | Fin a, Fin b => Fin (a / b)
  | Fin _, Inf => Fin 0
  | Inf, _ => Inf
  end.

Definition is_zero (x : t) : bool :=
  match x with
  | Fin a => bool_decide (a = 0%Qc)
  | Inf => false
  end.

Definition gt0 (x : t) : bool :=
  match x with
  | Fin a => bool_decide (0 < a)%Qc
  | Inf => true
  end.

Definition log (n : Z) : t := Fin (Q2Qc (inject_Z (Z.log2 n))).

Definition exp (x : t) : t :=
  match x with
  | Fin a => Fin (1 + a)
  | Inf => Inf
  end.

#[export] Instance ops : Double.Ops := {|
  Double.float := t;
  Double.lit q := Fin (Q2Qc q);
  Double.of_int z := Fin (Q2Qc (inject_Z z));
  Double.inf := Inf;
  Double.mul := mul;
  Double.div := div;
  Double.is_zero := is_zero;
  Double.gt0 := gt0;
  Double.log := log;
  Double.exp := exp;
|}.

End Rational.

(** ** goldbach_count.py: the table of counts *)

(** [ps[:k]]: the first [k] items, or all but the last [-k] when [k] is
    negative. *)
Definition slice_to {A} (l : list A) (k : Z) : list A :=
  if k <? 0 then take (Z.to_nat (Z.of_nat (length l) + k)) l
  else take (Z.to_nat k) l.

(** [max(xs)]: [ValueError] on an empty sequence. *)
Definition py_max (xs : list Z) : result Z :=
  match xs with
  | [] => Raise ValueError
  | x :: xs' => Ok (foldl Z.max x xs')
  end.

(** [compute_table(k_values, maxN)]: the rows [(k, N, G(N))], where [N] is
    the product of the [k]-prefix of the first [max(k_values)] primes. *)
Definition compute_table (estimate : Z → Z) (fuel : nat)
    (k_values : list Z) (maxN : option Z)
  : option (result (list (Z * Z * Z))) :=
  match py_max k_values with
  | Raise e => Some (Raise e)
  | Ok kmax =>
      match first_k_primes estimate fuel kmax with
      | None => None
      | Some (Raise e) => Some (Raise e)
      | Some (Ok ps) =>
          Some (for_in k_values
                  (λ rows k,
                     let N := primorial_from_primes (slice_to ps k) in
                     if match maxN with
                        | Some m => m <? N
                        | None => false
                        end
                     then Raise ValueError
                     else
                       is_prime ← sieve_is_prime N;
                       g ← goldbach_count N is_prime;
                       Ok (rows ++ [(k, N, g)]))
                  [])
      end
  end.

(** ** Reference values for the scans *)

#[global] Instance exn_eq_dec : EqDecision exn.
Proof. solve_decision. Defined.

#[global] Instance result_eq_dec `{EqDecision A} : EqDecision (result A).
Proof. solve_decision. Defined.

(** Number of occurrences of [x] in [l]. *)
Definition occurrences {A} `{EqDecision A} (x : A) (l : list A) : nat :=
  length (filter (λ y, y = x) l).

(** What a frequency table holds for a key that occurs [c] times. *)
Definition stored (c : nat) : option nat :=
  if decide (c = O) then None else Some c.

(** The primes of [a..b], in increasing order. *)
Definition primes_between (a b : Z) : list Z :=
  filter Z.prime (seqZ a (b + 1 - a)).

(** How many of [n] available primes the sampling loop tests when [tested]
    have been tested already: all of them when there is no cap or the cap
    is 0, one when the cap is negative, else what is left of the cap. *)
Definition room (max_primes : option Z) (tested : Z) (n : nat) : nat :=
  match max_primes with
  | None => n
  | Some m =>
      if m =? 0 then n
      else if m <? 0 then 1 `min` n
      else Z.to_nat (m - tested) `min` n
  end.

(** * Properties *)

(** ** The Python layer *)

Section python_layer.

Lemma elem_of_range (start stop step x : Z) :
  0 < step →
  x ∈ range start stop step ↔ start ≤ x < stop ∧ (step | x - start).
Proof.
  intros Hs. unfold range. rewrite list_elem_of_fmap. split.
  - intros (j & -> & Hj). apply elem_of_seqZ in Hj.
    split; [|exists j; lia].
    destruct Hj as [Hj0 Hj]. split; [nia|].
    assert (j + 1 ≤ (stop - start + step - 1) `div` step) as Hle by lia.
    assert (step * (j + 1) ≤ stop - start + step - 1); [|lia].
    etransitivity; [apply Z.mul_le_mono_nonneg_l, Hle; lia|].
    apply Z.mul_div_le; lia.
  - intros ([Hlo Hhi] & j & Hj). exists j. split; [lia|].
    apply elem_of_seqZ. split; [nia|].
    assert (j + 1 ≤ (stop - start + step - 1) `div` step)
      by (apply Z.div_le_lower_bound; nia).
    lia.
Qed.

Lemma NoDup_range (start stop step : Z) :
  0 < step → NoDup (range start stop step).
Proof.
  intros Hs. unfold range. apply NoDup_fmap_2; [|apply NoDup_seqZ].
  intros a b ?. nia.
Qed.

Lemma for_in_app {A S} (xs ys : list A) (body : S → A → result S) (s : S) :
  for_in (xs ++ ys) body s = (s' ← for_in xs body s; for_in ys body s').
Proof.
  revert s. induction xs as [|x xs IH]; intros s; simpl; [done|].
  destruct (body s x); simpl; [apply IH|done].
Qed.

(** Loop invariant rule: [Inv done s] relates the state to the items
    already consumed. *)
Lemma for_in_invariant {A S} (Inv : list A → S → Prop)
    (xs : list A) (body : S → A → result S) (s0 : S) :
  Inv [] s0 →
  (∀ done x rest s, xs = done ++ x :: rest → Inv done s →
     ∃ s', body s x = Ok s' ∧ Inv (done ++ [x]) s') →
  ∃ s, for_in xs body s0 = Ok s ∧ Inv xs s.
Proof.
  intros H0 Hstep.
  cut (∀ rest done s, xs = done ++ rest → Inv done s →
         ∃ s', for_in rest body s = Ok s' ∧ Inv xs s').
  { intros Hcut. apply (Hcut xs [] s0); done. }
  induction rest as [|x rest IH]; intros done s Hxs Hinv; simpl.
  - exists s. rewrite app_nil_r in Hxs. by subst.
  - destruct (Hstep done x rest s Hxs Hinv) as (s' & -> & Hinv'). simpl.
    apply (IH (done ++ [x])); [|done]. by rewrite <- app_assoc.
Qed.

#[global] Instance Ok_inj {A} : Inj (=) (=) (@Ok A).
Proof. by intros a b [=]. Qed.

Lemma getitem_Ok (t : list Z) (i v : Z) :
  0 ≤ i → t !! Z.to_nat i = Some v → getitem t i = Ok v.
Proof.
  intros Hi Hv. unfold getitem, position.
  destruct (Z.ltb_spec i 0); [lia|].
  destruct (Z.ltb_spec i 0); [lia|]. by rewrite Hv.
Qed.

Lemma setitem_Ok (t : list Z) (i v : Z) :
  0 ≤ i < Z.of_nat (length t) → setitem t i v = Ok (<[Z.to_nat i := v]> t).
Proof.
  intros Hi. unfold setitem, position.
  destruct (Z.ltb_spec i 0); [lia|].
  destruct (Z.leb_spec 0 i); [|lia].
  destruct (Z.ltb_spec i (Z.of_nat (length t))); [done|lia].
Qed.

Lemma setitem_out_of_range (t : list Z) (i v : Z) :
  Z.of_nat (length t) ≤ i → setitem t i v = Raise IndexError.
Proof.
  intros Hi. unfold setitem, position.
  destruct (Z.ltb_spec i 0); [lia|].
  destruct (Z.ltb_spec i (Z.of_nat (length t))); [lia|].
  by rewrite andb_false_r.
Qed.

(** [for x in xs: t[x] = v] with every index in range. *)
Lemma for_in_setitem (xs : list Z) (v : Z) (t : list Z) :
  (∀ x, x ∈ xs → 0 ≤ x < Z.of_nat (length t)) →
  ∃ t', for_in xs (λ t x, setitem t x v) t = Ok t' ∧
        length t' = length t ∧
        ∀ i, 0 ≤ i < Z.of_nat (length t) →
             t' !! Z.to_nat i = if decide (i ∈ xs) then Some v
                                else t !! Z.to_nat i.
Proof.
  revert t. induction xs as [|x xs IH]; intros t Hin; simpl.
  - exists t. split_and!; [done..|]. by intros i _.
  - assert (0 ≤ x < Z.of_nat (length t)) as Hx
      by (apply Hin, elem_of_cons; by left).
    rewrite setitem_Ok by done. simpl.
    destruct (IH (<[Z.to_nat x := v]> t)) as (t' & Hrun & Hlen & Hget).
    { intros y Hy. rewrite length_insert. apply Hin, elem_of_cons. by right. }
    rewrite length_insert in Hlen, Hget.
    exists t'. split_and!; [done..|]. intros i Hi.
    rewrite Hget by done.
    destruct (decide (i ∈ xs)) as [Hi'|Hi'].
    { rewrite decide_True; [done|]. apply elem_of_cons. by right. }
    destruct (decide (i = x)) as [->|Hne].
    + rewrite decide_True by (apply elem_of_cons; by left).
      apply list_lookup_insert_eq. lia.
    + rewrite decide_False.
      * apply list_lookup_insert_ne. lia.
      * intros [?|?]%elem_of_cons; done.
Qed.

End python_layer.

(** ** Arithmetic of primes *)

Section primes.

(** A divisor [>= 2] of a prime is the prime itself. *)
Lemma prime_divisor_eq (p d : Z) : Z.prime p → 2 ≤ d → (d | p) → d = p.
Proof.
  intros Hp Hd Hdiv. pose proof (Z.prime_ge_2 p Hp).
  destruct (Z.divide_prime_r d p Hp Hdiv) as [?|[?|[?|?]]]; lia.
Qed.

Lemma not_prime_divisor (i : Z) :
  1 < i → ¬ Z.prime i → ∃ m, 1 < m < i ∧ (m | i).
Proof.
  intros Hi Hnp. apply not_prime_divide; [done|].
  intros Hp. by apply Hnp, prime_alt.
Qed.

(** A composite number has a divisor no larger than its square root. *)
Lemma small_divisor (i : Z) :
  1 < i → ¬ Z.prime i → ∃ s, 2 ≤ s ∧ s * s ≤ i ∧ (s | i).
Proof.
  intros Hi Hnp.
  destruct (not_prime_divisor i Hi Hnp) as (m & Hm & e & He).
  assert (1 < e) by nia.
  destruct (Z.le_gt_cases m e).
  - exists m. split_and!; [lia|nia|]. exists e. lia.
  - exists e. split_and!; [lia|nia|]. exists m. lia.
Qed.

(** Every number [>= 2] has a prime divisor. *)
Lemma prime_divisor_exists (n : Z) : 2 ≤ n → ∃ p, Z.prime p ∧ (p | n).
Proof.
  intros Hn. assert (0 ≤ n) as Hn0 by lia. revert Hn.
  pattern n. apply Z_lt_induction; [|done]. clear n Hn0.
  intros n IH Hn. destruct (decide (Z.prime n)) as [Hp|Hnp].
  - exists n. split; [done|]. apply Z.divide_refl.
  - destruct (not_prime_divisor n ltac:(lia) Hnp) as (m & Hm & Hdiv).
    destruct (IH m ltac:(lia) ltac:(lia)) as (p & Hp & Hpm).
    exists p. split; [done|]. by etransitivity.
Qed.

End primes.

(** ** The sieve *)

Section sieve.

Variable n : Z.
Hypothesis n_ge_2 : 2 ≤ n.

Local Abbreviation sieved := (sieved n).
Local Abbreviation table0 := (setslice (bytes_times 1 (n + 1)) 0 2 [0; 0]).

Lemma table0_length : length table0 = Z.to_nat (n + 1).
Proof.
  unfold setslice, bytes_times. simpl.
  rewrite length_drop, length_replicate. lia.
Qed.

Lemma table0_lookup (i : Z) :
  0 ≤ i ≤ n → table0 !! Z.to_nat i = Some (if decide (i < 2) then 0 else 1).
Proof.
  intros Hi. unfold setslice, bytes_times. simpl.
  case_decide.
  - assert (i = 0 ∨ i = 1) as [->| ->] by lia; done.
  - replace (Z.to_nat i) with (S (S (Z.to_nat (i - 2)))) by lia. simpl.
    rewrite lookup_drop. apply lookup_replicate_2. lia.
Qed.

(** The pass [for i in range(4, n + 1, 2): is_prime[i] = 0]. *)
Lemma evens_pass :
  ∃ t, for_in (range 4 (n + 1) 2) (λ t i, setitem t i 0) table0 = Ok t ∧
       sieved [] t.
Proof.
  destruct (for_in_setitem (range 4 (n + 1) 2) 0 table0)
    as (t & Hrun & Hlen & Hget).
  { intros x [? _]%elem_of_range; [|lia]. rewrite table0_length. lia. }
  rewrite table0_length in Hlen, Hget.
  exists t. split; [done|]. split; [done|]. intros i Hi.
  rewrite Hget, table0_lookup by lia.
  case_decide as Hev.
  - apply elem_of_range in Hev as [? [c Hc]]; [|lia].
    exists 0. split_and!; [done|by left|]. split; [done|].
    intros [_ Hd]. specialize (Hd 2 (or_introl eq_refl)).
    assert (i < 2 * 2); [|lia]. apply Hd. exists (c + 2). lia.
  - case_decide.
    + exists 0. split_and!; [done|by left|]. split; [done|lia].
    + exists 1. split_and!; [done|by right|]. split; [|done].
      intros _. split; [lia|]. intros d [->|Hd] [c Hc].
      * destruct (decide (i < 4)); [lia|]. exfalso. apply Hev.
        apply elem_of_range; [lia|]. split; [lia|]. exists (c - 2). lia.
      * by apply elem_of_nil in Hd.
Qed.

(** One round of the outer loop, at the odd candidate [p]. *)
Lemma odd_round (ds : list Z) (p : Z) (t : list Z) :
  3 ≤ p → p * p ≤ n → sieved ds t →
  ∃ t',
    (v ← getitem t p;
     if truthy v
     then for_in (range (p * p) (n + 1) p) (λ t x, setitem t x 0) t
     else Ok t) = Ok t' ∧
    sieved (ds ++ [p]) t'.
Proof.
  intros Hp Hpp [Hlen Hinv].
  assert (p ≤ n) as Hpn by nia.
  destruct (Hinv p ltac:(lia)) as (v & Hv & Hv01 & Hv1).
  rewrite (getitem_Ok t p v) by (done || lia). simpl.
  destruct Hv01 as [-> | ->]; simpl.
  - (* [p] was crossed out earlier: so was every multiple from [p * p] *)
    exists t. split; [done|]. split; [done|]. intros i Hi.
    destruct (Hinv i Hi) as (w & Hw & Hw01 & Hw1).
    exists w. split_and!; [done..|]. rewrite Hw1. split.
    + intros [Hi2 Hall]. split; [done|]. intros d Hd Hdiv.
      rewrite elem_of_app, list_elem_of_singleton in Hd.
      destruct Hd as [Hd|[Hd| ->]]; [by apply Hall; auto..|].
      destruct (decide (i < p * p)) as [|Hge]; [done|]. exfalso.
      assert (0 = 1); [|done]. apply Hv1. split; [lia|].
      intros d Hd Hdp.
      assert (i < d * d); [|nia].
      apply Hall; [done|]. by etransitivity.
    + intros [Hi2 Hall]. split; [done|]. intros d Hd.
      apply Hall. rewrite elem_of_app. tauto.
  - (* [p] is still marked: cross out [p * p, p * p + p, ...] *)
    destruct (for_in_setitem (range (p * p) (n + 1) p) 0 t)
      as (t' & Hrun & Hlen' & Hget).
    { intros x [? _]%elem_of_range; lia. }
    rewrite Hlen in Hlen', Hget.
    exists t'. split; [done|]. split; [done|]. intros i Hi.
    rewrite Hget by lia.
    destruct (Hinv i Hi) as (w & Hw & Hw01 & Hw1).
    case_decide as Hmul.
    + apply elem_of_range in Hmul as [? [c Hc]]; [|lia].
      exists 0. split_and!; [done|by left|]. split; [done|].
      intros [_ Hall].
      assert (i < p * p); [|lia]. apply Hall.
      * right. rewrite elem_of_app, list_elem_of_singleton. by right.
      * exists (c + p). lia.
    + exists w. split_and!; [done..|]. rewrite Hw1. split.
      * intros [Hi2 Hall]. split; [done|]. intros d Hd Hdiv.
        rewrite elem_of_app, list_elem_of_singleton in Hd.
        destruct Hd as [Hd|[Hd| ->]]; [by apply Hall; auto..|].
        destruct (decide (i < p * p)) as [|Hge]; [done|]. exfalso.
        apply Hmul, elem_of_range; [lia|]. split; [lia|].
        destruct Hdiv as [c Hc]. exists (c - p). lia.
      * intros [Hi2 Hall]. split; [done|]. intros d Hd.
        apply Hall. rewrite elem_of_app. tauto.
Qed.

(** The outer loop over the odd candidates up to [isqrt(n)]. *)
Lemma odd_pass (t : list Z) :
  sieved [] t →
  ∃ t',
    for_in (range 3 (Z.sqrt n + 1) 2)
      (λ t p,
         v ← getitem t p;
         if truthy v
         then for_in (range (p * p) (n + 1) p) (λ t x, setitem t x 0) t
         else Ok t) t = Ok t' ∧
    sieved (range 3 (Z.sqrt n + 1) 2) t'.
Proof.
  intros Ht. apply (for_in_invariant sieved); [done|].
  intros ds p rest t' Hxs Hinv. apply odd_round; [..|done].
  - assert (p ∈ range 3 (Z.sqrt n + 1) 2) as Hp.
    { rewrite Hxs, elem_of_app, elem_of_cons. auto. }
    apply elem_of_range in Hp; lia.
  - assert (p ∈ range 3 (Z.sqrt n + 1) 2) as Hp.
    { rewrite Hxs, elem_of_app, elem_of_cons. auto. }
    apply elem_of_range in Hp as [Hp _]; [|lia].
    apply Z.sqrt_le_square; lia.
Qed.

(** When the loops are over, the entries still marked are the primes. *)
Lemma sieved_prime (i : Z) :
  0 ≤ i ≤ n →
  (2 ≤ i ∧ ∀ d, d = 2 ∨ d ∈ range 3 (Z.sqrt n + 1) 2 → (d | i) → i < d * d)
  ↔ Z.prime i.
Proof.
  intros Hi. split.
  - intros [Hi2 Hall]. destruct (decide (Z.prime i)) as [|Hnp]; [done|].
    exfalso. destruct (small_divisor i ltac:(lia) Hnp) as (s & Hs & Hss & Hsi).
    destruct (Z.Even_or_Odd s) as [[c Hc]|[c Hc]].
    + assert (i < 2 * 2); [|nia]. apply Hall; [by left|].
      etransitivity; [|done]. exists c. lia.
    + assert (i < s * s); [|lia]. apply Hall; [|done]. right.
      apply elem_of_range; [lia|]. split; [|exists (c - 1); lia].
      assert (s ≤ Z.sqrt n); [|lia]. apply Z.sqrt_le_square; lia.
  - intros Hp. pose proof (Z.prime_ge_2 i Hp). split; [done|].
    intros d Hd Hdiv. assert (2 ≤ d) as Hd2.
    { destruct Hd as [->|Hd]; [done|]. apply elem_of_range in Hd; lia. }
    rewrite (prime_divisor_eq i d Hp Hd2 Hdiv). nia.
Qed.

Lemma sieve_correct :
  ∃ t, sieve_is_prime n = Ok t ∧ is_prime_table n t.
Proof.
  unfold sieve_is_prime.
  destruct (Z.ltb_spec n 1); [lia|].
  destruct evens_pass as (t1 & -> & Ht1). simpl.
  destruct (odd_pass t1 Ht1) as (t2 & -> & [Hlen Ht2]). simpl.
  destruct (Z.leb_spec 2 n); [|lia].
  rewrite setitem_Ok by lia. eexists. split; [done|].
  split; [by rewrite length_insert|]. intros i Hi.
  destruct (decide (i = 2)) as [->|Hne].
  - rewrite list_lookup_insert_eq by lia.
    by rewrite decide_True by apply Z.prime_2.
  - rewrite list_lookup_insert_ne by lia.
    destruct (Ht2 i Hi) as (v & -> & Hv01 & Hv1). f_equal.
    rewrite (sieved_prime i Hi) in Hv1.
    case_decide; [by apply Hv1|]. destruct Hv01 as [->| ->]; [done|].
    exfalso. tauto.
Qed.

End sieve.

(** ** Sorted lists *)

Section sorted_lists.

Lemma StronglySorted_seqZ (m len : Z) : StronglySorted Z.lt (seqZ m len).
Proof.
  destruct (Z.le_gt_cases len 0) as [|Hpos].
  { rewrite seqZ_nil by done. constructor. }
  rewrite <- (Z2Nat.id len) by lia. clear Hpos.
  generalize (Z.to_nat len). clear len. intros k. revert m.
  induction k as [|k IH]; intros m; [constructor|].
  rewrite seqZ_cons by lia.
  replace (Z.pred (Z.of_nat (S k))) with (Z.of_nat k) by lia.
  constructor; [apply IH|]. apply Forall_seqZ. lia.
Qed.

Lemma StronglySorted_range (start stop step : Z) :
  0 < step → StronglySorted Z.lt (range start stop step).
Proof.
  intros Hs. unfold range.
  apply (StronglySorted_fmap _ Z.lt); [|apply StronglySorted_seqZ].
  intros x y ?. nia.
Qed.

Lemma StronglySorted_filter {A} (R : relation A) (P : A → Prop)
    `{!∀ x, Decision (P x)} (l : list A) :
  StronglySorted R l → StronglySorted R (filter P l).
Proof.
  induction 1 as [|a l Hl IH Ha]; [constructor|].
  rewrite filter_cons. case_decide; [|done].
  constructor; [done|]. rewrite Forall_forall in Ha |- *.
  intros x [_ ?]%list_elem_of_filter. auto.
Qed.

Lemma StronglySorted_take {A} (R : relation A) (k : nat) (l : list A) :
  StronglySorted R l → StronglySorted R (take k l).
Proof.
  intros Hl. rewrite <- (take_drop k l) in Hl.
  by apply StronglySorted_app_1_l in Hl.
Qed.

Lemma StronglySorted_lt_NoDup (l : list Z) : StronglySorted Z.lt l → NoDup l.
Proof.
  induction 1 as [|a l Hl IH Ha]; constructor; [|done].
  rewrite Forall_forall in Ha. intros Hin. specialize (Ha a Hin). lia.
Qed.

(** In a sorted list, whatever lies below a member of a prefix is in
    that prefix too. *)
Lemma elem_of_take_sorted (k : nat) (l : list Z) (p q : Z) :
  StronglySorted Z.lt l → p ∈ take k l → q ∈ l → q < p → q ∈ take k l.
Proof.
  intros Hl Hp Hq Hqp. rewrite <- (take_drop k l) in Hl, Hq.
  apply elem_of_app in Hq as [|Hq]; [done|].
  pose proof (StronglySorted_app_1_elem_of _ _ _ p q Hl Hp Hq). lia.
Qed.

Lemma list_max_exists (l : list Z) :
  l ≠ [] → ∃ m, m ∈ l ∧ ∀ x, x ∈ l → x ≤ m.
Proof.
  induction l as [|a l IH]; [done|]. intros _.
  destruct l as [|b l].
  { exists a. split; [by left|]. by intros x ->%list_elem_of_singleton. }
  destruct (IH ltac:(done)) as (m & Hm & Hmax).
  destruct (Z.le_gt_cases a m).
  - exists m. split; [by right|]. intros x [->|?]%elem_of_cons; auto.
  - exists a. split; [by left|].
    intros x [->|Hx]%elem_of_cons; [done|]. specialize (Hmax x Hx). lia.
Qed.

End sorted_lists.

(** Claim C1: for every [n >= 2], [sieve_is_prime n] returns a table of
    [n + 1] entries in which entry [i] is true exactly when [i] is prime;
    entries 0 and 1 are false, entry 2 is true, every even entry above 2
    is false, and for [n = 30] the entries marked are
    2, 3, 5, 7, 11, 13, 17, 19, 23 and 29. *)
Theorem sieve_marks_exactly_the_primes (n : Z) (Hn : 2 ≤ n) :
  (∃ t, sieve_is_prime n = Ok t ∧
        length t = Z.to_nat (n + 1) ∧
        (∀ i, 0 ≤ i ≤ n →
              (getitem t i = Ok 1 ∧ Z.prime i) ∨
              (getitem t i = Ok 0 ∧ ¬ Z.prime i)) ∧
        getitem t 0 = Ok 0 ∧ getitem t 1 = Ok 0 ∧ getitem t 2 = Ok 1 ∧
        (∀ i, 2 < i ≤ n → (2 | i) → getitem t i = Ok 0)) ∧
  sieve_is_prime 30 =
  Ok [0;0;1;1;0;1;0;1;0;0;0;1;0;1;0;0;0;1;0;1;0;0;0;1;0;0;0;0;0;1;0].
Proof.
  split; [|by vm_compute].
  destruct (sieve_correct n Hn) as (t & Hrun & Hlen & Hget).
  assert (∀ i, 0 ≤ i ≤ n →
            getitem t i = Ok (if decide (Z.prime i) then 1 else 0)) as Hread.
  { intros i Hi. apply getitem_Ok; [lia|]. by apply Hget. }
  exists t. split_and!; [done..| | | | |].
  - intros i Hi. rewrite (Hread i Hi). case_decide; auto.
  - rewrite Hread by lia. rewrite decide_False; [done|apply Z.not_prime_0].
  - rewrite Hread by lia. rewrite decide_False; [done|apply Z.not_prime_1].
  - rewrite Hread by lia. rewrite decide_True; [done|apply Z.prime_2].
  - intros i Hi Heven. rewrite Hread by lia. rewrite decide_False; [done|].
    intros Hp. pose proof (prime_divisor_eq i 2 Hp ltac:(lia) Heven). lia.
Qed.

Lemma sieve_marks_exactly_the_primes_witness :
  (∃ t, sieve_is_prime 30 = Ok t ∧
        length t = Z.to_nat (30 + 1) ∧
        (∀ i, 0 ≤ i ≤ 30 →
              (getitem t i = Ok 1 ∧ Z.prime i) ∨
              (getitem t i = Ok 0 ∧ ¬ Z.prime i)) ∧
        getitem t 0 = Ok 0 ∧ getitem t 1 = Ok 0 ∧ getitem t 2 = Ok 1 ∧
        (∀ i, 2 < i ≤ 30 → (2 | i) → getitem t i = Ok 0)) ∧
  sieve_is_prime 30 =
  Ok [0;0;1;1;0;1;0;1;0;0;0;1;0;1;0;0;0;1;0;1;0;0;0;1;0;0;0;0;0;1;0].
Proof. apply (sieve_marks_exactly_the_primes 30). lia. Defined.

(** Claim C9: [sieve_is_prime] handles the bounds below 4.  For 0, 2 and
    3 it returns the all-false, resp. minimal, tables; for 1 the final
    store [is_prime[2] = 0] falls outside the two-entry table and raises
    [IndexError]. *)
Theorem sieve_small_bounds :
  sieve_is_prime 0 = Ok [0] ∧
  sieve_is_prime 1 = Raise IndexError ∧
  sieve_is_prime 2 = Ok [0; 0; 1] ∧
  sieve_is_prime 3 = Ok [0; 0; 1; 1].
Proof. by vm_compute. Qed.

(** ** Prime lists *)

Section prime_lists.

Lemma is_first_k_primes_subset (k1 k2 : nat) (l1 l2 : list Z) (m1 m2 : Z) :
  is_first_k_primes k1 l1 → is_first_k_primes k2 l2 →
  (∀ x, x ∈ l1 → x ≤ m1) → m2 ∈ l2 → m1 ≤ m2 →
  ∀ x, x ∈ l1 → x ∈ l2.
Proof.
  intros (_ & _ & Hp1 & _) (_ & _ & _ & Hc2) Hmax Hm2 Hle x Hx.
  destruct (decide (x = m2)) as [->|Hne]; [done|].
  apply (Hc2 m2); [done|by apply Hp1|]. specialize (Hmax x Hx). lia.
Qed.

(** There is only one list of the first [k] primes. *)
Lemma is_first_k_primes_unique (k : nat) (l1 l2 : list Z) :
  is_first_k_primes k l1 → is_first_k_primes k l2 → l1 = l2.
Proof.
  intros H1 H2.
  pose proof H1 as (Hlen1 & Hs1 & _). pose proof H2 as (Hlen2 & Hs2 & _).
  destruct (decide (l1 = [])) as [->|Hne1].
  { simpl in Hlen1. subst k. by destruct l2. }
  assert (l2 ≠ []) as Hne2 by (intros ->; destruct l1; simplify_eq/=).
  destruct (list_max_exists l1 Hne1) as (m1 & Hm1 & Hmax1).
  destruct (list_max_exists l2 Hne2) as (m2 & Hm2 & Hmax2).
  assert (AntiSymm eq Z.lt) by (intros x y ??; lia).
  apply (StronglySorted_unique Z.lt); [done..|].
  destruct (Z.le_gt_cases m1 m2).
  - apply submseteq_length_Permutation; [|lia].
    apply NoDup_submseteq; [by apply StronglySorted_lt_NoDup|].
    by apply (is_first_k_primes_subset k k l1 l2 m1 m2).
  - symmetry. apply submseteq_length_Permutation; [|lia].
    apply NoDup_submseteq; [by apply StronglySorted_lt_NoDup|].
    apply (is_first_k_primes_subset k k l2 l1 m2 m1); [done..|lia].
Qed.

Lemma elem_of_primes_list (n p : Z) :
  2 ≤ n → p ∈ primes_list n ↔ Z.prime p ∧ p ≤ n.
Proof.
  intros Hn. unfold primes_list.
  rewrite elem_of_cons, list_elem_of_filter, elem_of_range by lia. split.
  - intros [->|(Hp & ? & _)]; [|split; [done|lia]].
    split; [apply Z.prime_2|done].
  - intros [Hp Hpn]. pose proof (Z.prime_ge_2 p Hp).
    destruct (decide (p = 2)) as [|Hne]; [by left|right].
    split; [done|].
    destruct (Z.Even_or_Odd p) as [[c Hc]|[c Hc]].
    + pose proof (prime_divisor_eq p 2 Hp ltac:(lia)) as Heq.
      exfalso. apply Hne. symmetry. apply Heq. exists c. lia.
    + split; [lia|]. exists (c - 1). lia.
Qed.

Lemma primes_list_sorted (n : Z) : StronglySorted Z.lt (primes_list n).
Proof.
  unfold primes_list. constructor.
  - apply StronglySorted_filter, StronglySorted_range. lia.
  - apply Forall_forall. intros x [_ Hx]%list_elem_of_filter.
    apply elem_of_range in Hx; lia.
Qed.

Lemma primes_list_mono (n n' : Z) :
  2 ≤ n ≤ n' → (length (primes_list n) ≤ length (primes_list n'))%nat.
Proof.
  intros Hn. apply submseteq_length, NoDup_submseteq.
  - apply StronglySorted_lt_NoDup, primes_list_sorted.
  - intros p. rewrite !elem_of_primes_list by lia. intros [? ?].
    split; [done|lia].
Qed.

(** Any prefix of the sorted list of primes is a list of first primes. *)
Lemma take_primes_list (k : nat) (n : Z) :
  2 ≤ n → (k ≤ length (primes_list n))%nat →
  is_first_k_primes k (take k (primes_list n)).
Proof.
  intros Hn Hk. split_and!.
  - rewrite length_take. lia.
  - apply StronglySorted_take, primes_list_sorted.
  - intros p Hp%subseteq_take. by apply elem_of_primes_list in Hp as [? _].
  - intros p q Hp Hq Hqp.
    apply (elem_of_take_sorted k _ p q); [apply primes_list_sorted|done| |done].
    apply elem_of_primes_list; [done|]. split; [done|].
    apply subseteq_take, elem_of_primes_list in Hp; lia.
Qed.

End prime_lists.

(** ** Reading the primes off the table *)

Section primes_up_to.

Lemma is_prime_table_correct_on (n : Z) (t : list Z) :
  is_prime_table n t → correct_on n t.
Proof.
  intros [_ Hget] i Hi. eexists. split; [by apply Hget|].
  case_decide; split; done.
Qed.

Lemma correct_on_getitem (n : Z) (t : list Z) (i : Z) :
  correct_on n t → 0 ≤ i ≤ n →
  ∃ v, getitem t i = Ok v ∧ truthy v = bool_decide (Z.prime i).
Proof.
  intros Ht Hi. destruct (Ht i Hi) as (v & Hv & Hp).
  exists v. split; [apply getitem_Ok; [lia|done]|].
  apply eq_true_iff_eq. by rewrite Hp, bool_decide_eq_true.
Qed.

(** The comprehension [[i for i in xs if is_prime[i]]]. *)
Lemma collect_marked (n : Z) (t : list Z) (xs acc : list Z) :
  correct_on n t → (∀ x, x ∈ xs → 0 ≤ x ≤ n) →
  for_in xs
    (λ acc i, v ← getitem t i; Ok (if truthy v then acc ++ [i] else acc))
    acc
  = Ok (acc ++ filter Z.prime xs).
Proof.
  intros Ht. revert acc. induction xs as [|x xs IH]; intros acc Hxs; simpl.
  { by rewrite app_nil_r. }
  destruct (correct_on_getitem n t x Ht) as (v & -> & Hv).
  { apply Hxs. by left. }
  simpl. rewrite Hv, filter_cons.
  rewrite IH by (intros y Hy; apply Hxs; by right).
  destruct (decide (Z.prime x)) as [Hp|Hp].
  - rewrite bool_decide_eq_true_2 by done. by rewrite <- app_assoc.
  - by rewrite bool_decide_eq_false_2 by done.
Qed.

Lemma primes_up_to_correct (n : Z) (t : list Z) :
  2 ≤ n → correct_on n t → primes_up_to n (Some t) = Ok (primes_list n).
Proof.
  intros Hn Ht. unfold primes_up_to.
  destruct (Z.ltb_spec n 2); [lia|]. simpl.
  rewrite (collect_marked n); [done..|].
  intros x Hx%elem_of_range; lia.
Qed.

Lemma primes_up_to_sieve (n : Z) :
  2 ≤ n →
  (is_prime ← sieve_is_prime n; primes_up_to n (Some is_prime))
  = Ok (primes_list n).
Proof.
  intros Hn. destruct (sieve_correct n Hn) as (t & -> & Ht). simpl.
  by apply primes_up_to_correct, is_prime_table_correct_on.
Qed.

End primes_up_to.

(** ** Euclid's theorem *)

Section euclid.

Lemma list_prod_pos (l : list Z) : Forall (Z.le 1) l → 1 ≤ list_prod l.
Proof. induction 1; simpl; [done|]. unfold list_prod in *. nia. Qed.

Lemma divide_list_prod (d : Z) (l : list Z) : d ∈ l → (d | list_prod l).
Proof.
  induction l as [|a l IH]; [by intros ?%elem_of_nil|].
  intros [->|Hd]%elem_of_cons; simpl.
  - apply Z.divide_mul_l, Z.divide_refl.
  - by apply Z.divide_mul_r, IH.
Qed.

Lemma factorial_pos (n : Z) : 1 ≤ Reference.factorial n.
Proof. apply list_prod_pos, Forall_seqZ. lia. Qed.

(** A prime lies strictly above [n] and no higher than [n! + 1]. *)
Lemma euclid (n : Z) :
  ∃ q, Z.prime q ∧ n < q ≤ Reference.factorial n + 1.
Proof.
  pose proof (factorial_pos n) as Hpos.
  destruct (prime_divisor_exists (Reference.factorial n + 1) ltac:(lia))
    as (q & Hq & Hdiv).
  exists q. split; [done|]. pose proof (Z.prime_ge_2 q Hq). split.
  - destruct (Z.lt_ge_cases n q) as [|Hle]; [done|]. exfalso.
    assert (q | Reference.factorial n) as Hqf.
    { apply divide_list_prod, elem_of_seqZ. lia. }
    assert (q | 1) as Hq1.
    { replace 1 with (Reference.factorial n + 1 - Reference.factorial n)
        by lia. by apply Z.divide_sub_r. }
    apply Z.divide_1_r in Hq1. lia.
  - apply Z.divide_pos_le; [lia|done].
Qed.

(** However many primes are wanted, some bound has that many below it. *)
Lemma enough_primes (k : nat) :
  ∃ B, 2 ≤ B ∧ (k ≤ length (primes_list B))%nat.
Proof.
  induction k as [|k (B & HB & Hk)].
  { exists 2. split; [done|lia]. }
  destruct (euclid B) as (q & Hq & HBq & _).
  exists q. split; [lia|].
  assert (q :: primes_list B ⊆+ primes_list q) as Hsub.
  { apply NoDup_submseteq.
    - constructor; [|apply StronglySorted_lt_NoDup, primes_list_sorted].
      rewrite elem_of_primes_list by done. lia.
    - intros p. rewrite elem_of_cons, !elem_of_primes_list by lia.
      intros [->|[? ?]]; (split; [done|lia]). }
  apply submseteq_length in Hsub.
  change (S (length (primes_list B)) ≤ length (primes_list q))%nat in Hsub.
  lia.
Qed.

End euclid.

(** ** The expanding-bound generator *)

Section first_k_primes.

Lemma first_k_primes_loop_fuel (fuel fuel' : nat) (k bound : Z) r :
  (fuel ≤ fuel')%nat →
  first_k_primes_loop fuel k bound = Some r →
  first_k_primes_loop fuel' k bound = Some r.
Proof.
  revert fuel' bound. induction fuel as [|fuel IH]; intros fuel' bound Hle;
    [done|].
  destruct fuel' as [|fuel']; [lia|]. simpl.
  destruct (_ ← sieve_is_prime bound; _) as [ps|e]; [|done].
  destruct (k <=? Z.of_nat (length ps)); [done|]. apply IH. lia.
Qed.

(** Doubling reaches any bound [B] below which there are [k] primes. *)
Lemma first_k_primes_loop_converges (k B : Z) (fuel : nat) (bound : Z) :
  2 ≤ B → (Z.to_nat k ≤ length (primes_list B))%nat →
  2 ≤ bound → B ≤ bound + Z.of_nat fuel →
  ∃ ps, first_k_primes_loop (S fuel) k bound = Some (Ok ps) ∧
        is_first_k_primes (Z.to_nat k) ps.
Proof.
  intros HB Hk. revert bound.
  induction fuel as [|fuel IH]; intros bound Hbound Hreach.
  - simpl. rewrite primes_up_to_sieve by done.
    pose proof (primes_list_mono B bound ltac:(lia)).
    destruct (Z.leb_spec k (Z.of_nat (length (primes_list bound)))); [|lia].
    eexists. split; [done|]. apply take_primes_list; lia.
  - cbn [first_k_primes_loop]. rewrite primes_up_to_sieve by done.
    destruct (Z.leb_spec k (Z.of_nat (length (primes_list bound)))).
    + eexists. split; [done|]. apply take_primes_list; lia.
    + apply IH; lia.
Qed.

(** A list of first primes, read off the verified sieve at bound [n]. *)
Local Ltac first_primes_by_sieve n :=
  match goal with
  | |- is_first_k_primes ?k ?ps =>
      assert (primes_list n = ps) as Heq
        by (apply (inj Ok); rewrite <- primes_up_to_sieve by lia;
            by vm_compute);
      replace ps with (take k (primes_list n)) by (by rewrite Heq);
      apply take_primes_list; [lia|by rewrite Heq]
  end.

Lemma first_1_primes : is_first_k_primes 1 [2].
Proof. first_primes_by_sieve 2. Qed.

Lemma first_2_primes : is_first_k_primes 2 [2; 3].
Proof. first_primes_by_sieve 3. Qed.

Lemma first_8_primes : is_first_k_primes 8 [2; 3; 5; 7; 11; 13; 17; 19].
Proof. first_primes_by_sieve 19. Qed.

End first_k_primes.

(** The generator returns, with enough fuel, the list of the first [k]
    primes, and never anything else. *)
Lemma first_k_primes_result (estimate : Z → Z) (k : Z) :
  (∀ k, 6 ≤ k → 0 ≤ estimate k) → 0 ≤ k →
  ∃ (fuel0 : nat) (ps : list Z),
    (∀ fuel, (fuel0 ≤ fuel)%nat →
             first_k_primes estimate fuel k = Some (Ok ps)) ∧
    (∀ fuel r, first_k_primes estimate fuel k = Some r → r = Ok ps) ∧
    is_first_k_primes (Z.to_nat k) ps.
Proof.
  intros Hest Hk.
  assert (∃ (fuel0 : nat) (ps : list Z),
            first_k_primes estimate fuel0 k = Some (Ok ps) ∧
            is_first_k_primes (Z.to_nat k) ps) as (fuel0 & ps & Hrun & Hps).
  { unfold first_k_primes. destruct (Z.leb_spec k 0).
    - exists O, []. replace k with 0 by lia. split; [done|].
      split_and!; [done|apply SSorted_nil| |].
      + by intros p ?%elem_of_nil.
      + by intros p q ?%elem_of_nil.
    - destruct (enough_primes (Z.to_nat k)) as (B & HB & Hlen).
      set (bound := if k <? 6 then 15 else estimate k + 10).
      assert (2 ≤ bound).
      { unfold bound. destruct (Z.ltb_spec k 6); [lia|].
        specialize (Hest k ltac:(lia)). lia. }
      destruct (first_k_primes_loop_converges k B (Z.to_nat B) bound)
        as (ps & Hrun & Hps); [done..|lia|].
      by exists (S (Z.to_nat B)), ps. }
  assert (∀ fuel, (fuel0 ≤ fuel)%nat →
                  first_k_primes estimate fuel k = Some (Ok ps)) as Hmore.
  { intros fuel Hle. revert Hrun. unfold first_k_primes.
    destruct (k <=? 0); [done|]. by apply first_k_primes_loop_fuel. }
  exists fuel0, ps. split_and!; [done| |done].
  intros fuel r Hr.
  assert (first_k_primes estimate (fuel `max` fuel0) k = Some r) as Hr'.
  { revert Hr. unfold first_k_primes.
    destruct (k <=? 0); [done|]. apply first_k_primes_loop_fuel. lia. }
  rewrite Hmore in Hr' by lia. congruence.
Qed.

(** Claim C3: for every [k >= 0] the expanding-bound generator returns:
    some amount of fuel suffices, every larger amount gives the same list,
    and that list is the first [k] primes in strictly increasing order.
    Hence the 5th prime is 11, and the primorials of 5, 8 and 0 are 2310,
    9699690 and 1.  The starting bound for [k >= 6] comes from a
    floating-point estimate, of which only non-negativity is used. *)
Theorem first_k_primes_terminates (estimate : Z → Z)
    (Hest : ∀ k, 6 ≤ k → 0 ≤ estimate k) (k : Z) (Hk : 0 ≤ k) :
  (∃ (fuel0 : nat) (ps : list Z),
     (∀ fuel, (fuel0 ≤ fuel)%nat →
              first_k_primes estimate fuel k = Some (Ok ps)) ∧
     (∀ fuel r, first_k_primes estimate fuel k = Some r → r = Ok ps) ∧
     is_first_k_primes (Z.to_nat k) ps) ∧
  (first_k_primes estimate 1 5 = Some (Ok [2; 3; 5; 7; 11]) ∧
   last [2; 3; 5; 7; 11] = Some 11 ∧
   primorial_from_primes [2; 3; 5; 7; 11] = 2310) ∧
  ((∃ fuel, first_k_primes estimate fuel 8
            = Some (Ok [2; 3; 5; 7; 11; 13; 17; 19])) ∧
   primorial_from_primes [2; 3; 5; 7; 11; 13; 17; 19] = 9699690) ∧
  (first_k_primes estimate 0 0 = Some (Ok []) ∧
   primorial_from_primes [] = 1).
Proof.
  split_and!; [by apply first_k_primes_result|done..| |done|done|done].
  destruct (first_k_primes_result estimate 8 Hest ltac:(lia))
    as (fuel & ps & Hrun & _ & Hps).
  exists fuel. rewrite (Hrun fuel) by done.
  by rewrite (is_first_k_primes_unique 8 ps _ Hps first_8_primes).
Qed.

Lemma first_k_primes_terminates_witness :
  (∃ (fuel0 : nat) (ps : list Z),
     (∀ fuel, (fuel0 ≤ fuel)%nat →
              first_k_primes (λ _, 22) fuel 8 = Some (Ok ps)) ∧
     (∀ fuel r, first_k_primes (λ _, 22) fuel 8 = Some r → r = Ok ps) ∧
     is_first_k_primes (Z.to_nat 8) ps) ∧
  (first_k_primes (λ _, 22) 1 5 = Some (Ok [2; 3; 5; 7; 11]) ∧
   last [2; 3; 5; 7; 11] = Some 11 ∧
   primorial_from_primes [2; 3; 5; 7; 11] = 2310) ∧
  ((∃ fuel, first_k_primes (λ _, 22) fuel 8
            = Some (Ok [2; 3; 5; 7; 11; 13; 17; 19])) ∧
   primorial_from_primes [2; 3; 5; 7; 11; 13; 17; 19] = 9699690) ∧
  (first_k_primes (λ _, 22) 0 0 = Some (Ok []) ∧
   primorial_from_primes [] = 1).
Proof. apply (first_k_primes_terminates (λ _, 22)); [intros; lia|lia]. Defined.

(** ** The exact Goldbach count *)

Section goldbach_count.

Variable N : Z.
Variable t : list Z.
Hypothesis table_ok : correct_on N t.

Local Abbreviation pair_ok := (λ p, Z.prime p ∧ Z.prime (N - p)).

(** The loop over the odd candidates adds one per representation. *)
Lemma count_loop (xs : list Z) (count : Z) :
  (∀ x, x ∈ xs → 0 ≤ x ≤ N) →
  for_in xs
    (λ count p,
       a ← getitem t p;
       if truthy a
       then b ← getitem t (N - p);
            Ok (if truthy b then count + 1 else count)
       else Ok count)
    count
  = Ok (count + Z.of_nat (length (filter pair_ok xs))).
Proof.
  revert count. induction xs as [|x xs IH]; intros count Hxs; simpl.
  { f_equal. lia. }
  assert (0 ≤ x ≤ N) as Hx by (apply Hxs; by left).
  destruct (correct_on_getitem N t x table_ok Hx) as (a & -> & Ha).
  destruct (correct_on_getitem N t (N - x) table_ok ltac:(lia))
    as (b & Hb & Hb').
  simpl. rewrite Ha, filter_cons.
  destruct (decide (Z.prime x)) as [Hp|Hp].
  - rewrite bool_decide_eq_true_2 by done. rewrite Hb. simpl. rewrite Hb'.
    rewrite IH by (intros y Hy; apply Hxs; by right).
    destruct (decide (Z.prime (N - x))) as [Hq|Hq].
    + rewrite bool_decide_eq_true_2, decide_True by done.
      f_equal. simpl. lia.
    + rewrite bool_decide_eq_false_2, decide_False by tauto. done.
  - rewrite bool_decide_eq_false_2 by done. simpl.
    rewrite IH by (intros y Hy; apply Hxs; by right).
    by rewrite decide_False by tauto.
Qed.

(** The candidates tried by the code, [2] and the odd numbers of
    [3..N // 2], carry every representation exactly once. *)
Lemma goldbach_pairs_candidates :
  4 ≤ N →
  goldbach_pairs N ≡ₚ
  filter pair_ok (2 :: range 3 (N `div` 2 + 1) 2).
Proof.
  intros HN. assert (2 ≤ N `div` 2) by (apply Z.div_le_lower_bound; lia).
  unfold goldbach_pairs. apply NoDup_Permutation.
  - apply NoDup_filter, NoDup_seqZ.
  - apply NoDup_filter. constructor; [|apply NoDup_range; lia].
    intros Hin%elem_of_range; lia.
  - intros x. rewrite !list_elem_of_filter, elem_of_seqZ, elem_of_cons,
      elem_of_range by lia.
    split; intros [[Hp Hq] Hx]; (split; [done|]).
    + pose proof (Z.prime_ge_2 x Hp).
      destruct (decide (x = 2)) as [|Hne]; [by left|right].
      destruct (Z.Even_or_Odd x) as [[c Hc]|[c Hc]].
      * exfalso. apply Hne. symmetry.
        apply (prime_divisor_eq x 2 Hp); [lia|]. exists c. lia.
      * split; [lia|]. exists (c - 1). lia.
    + destruct Hx as [->|[? _]]; lia.
Qed.

End goldbach_count.

(** Claim C2: for every even [N >= 4] and every table that answers
    primality correctly on [0..N], [goldbach_count] returns the number of
    primes [p <= N // 2] with [N - p] prime; on the sieved tables it gives
    3 for [N = 30] and 1 for [N = 4]. *)
Theorem goldbach_count_exact (N : Z) (t : list Z)
    (HN : 4 ≤ N) (Heven : N `mod` 2 = 0) (Ht : correct_on N t) :
  goldbach_count N t = Ok (Z.of_nat (length (goldbach_pairs N))) ∧
  (t ← sieve_is_prime 30; goldbach_count 30 t) = Ok 3 ∧
  (t ← sieve_is_prime 4; goldbach_count 4 t) = Ok 1.
Proof.
  split; [|by vm_compute].
  unfold goldbach_count.
  assert (2 ≤ N `div` 2) by (apply Z.div_le_lower_bound; lia).
  assert (N `div` 2 ≤ N) by (apply Z.div_le_upper_bound; lia).
  destruct (Z.ltb_spec N 4); [lia|]. rewrite Heven. simpl.
  destruct (Z.leb_spec 2 (N `div` 2)); [|lia].
  destruct (correct_on_getitem N t 2 Ht ltac:(lia)) as (a & -> & Ha).
  destruct (correct_on_getitem N t (N - 2) Ht ltac:(lia))
    as (b & Hb & Hb').
  simpl. rewrite Ha, bool_decide_eq_true_2 by apply Z.prime_2.
  rewrite Hb. simpl.
  rewrite (count_loop N t Ht) by (intros x Hx%elem_of_range; lia).
  rewrite goldbach_pairs_candidates by done.
  rewrite filter_cons, Hb'. f_equal.
  destruct (decide (Z.prime (N - 2))) as [Hq|Hq].
  - rewrite bool_decide_eq_true_2 by done.
    rewrite decide_True by (split; [apply Z.prime_2|done]). simpl. lia.
  - rewrite bool_decide_eq_false_2 by done.
    rewrite decide_False by tauto. lia.
Qed.

Lemma goldbach_count_exact_witness :
  goldbach_count 30
    [0;0;1;1;0;1;0;1;0;0;0;1;0;1;0;0;0;1;0;1;0;0;0;1;0;0;0;0;0;1;0]
  = Ok (Z.of_nat (length (goldbach_pairs 30))) ∧
  (t ← sieve_is_prime 30; goldbach_count 30 t) = Ok 3 ∧
  (t ← sieve_is_prime 4; goldbach_count 4 t) = Ok 1.
Proof.
  apply goldbach_count_exact; [lia|reflexivity|].
  destruct (sieve_correct 30) as (t & Hrun & Ht); [lia|].
  vm_compute in Hrun. injection Hrun as <-.
  by apply is_prime_table_correct_on.
Defined.

(** ** The reference functions meet the sympy contract *)

Section reference.

Lemma reference_isprime_spec (n : Z) :
  Reference.isprime n = true ↔ Z.prime n.
Proof.
  unfold Reference.isprime, Z.prime.
  rewrite andb_true_iff, Z.ltb_lt, forallb_forall.
  split; intros [Hn Hall]; (split; [done|]).
  - intros d Hd Hdiv.
    specialize (Hall d). rewrite <- list_elem_of_In, elem_of_seqZ in Hall.
    specialize (Hall ltac:(lia)). apply negb_true_iff, Z.eqb_neq in Hall.
    apply Hall, Z.mod_divide; [lia|done].
  - intros d Hd. rewrite <- list_elem_of_In, elem_of_seqZ in Hd.
    apply negb_true_iff, Z.eqb_neq. intros Hmod.
    apply (Hall d); [lia|]. apply Z.mod_divide; [lia|done].
Qed.

(** The search returns the least prime of its window, or reports that
    the window holds none. *)
Lemma search_prime_spec (fuel : positive) (c : Z) :
  match Reference.search_prime fuel c with
  | inl r => Z.prime r ∧ c ≤ r ∧ ∀ q, Z.prime q → c ≤ q → r ≤ q
  | inr c' => c' = c + Z.pos fuel ∧ ∀ q, Z.prime q → c ≤ q → c' ≤ q
  end.
Proof.
  assert (∀ c, Reference.isprime c = false →
               ∀ q, Z.prime q → c ≤ q → c + 1 ≤ q) as Hskip.
  { intros c' Hc q Hq Hle. destruct (decide (c' = q)) as [->|]; [|lia].
    apply reference_isprime_spec in Hq. congruence. }
  revert c. induction fuel as [fuel IH|fuel IH|]; intros c; simpl.
  - destruct (Reference.isprime c) eqn:Hpc.
    { apply reference_isprime_spec in Hpc. split_and!; [done|lia|auto]. }
    pose proof (IH (c + 1)) as H1.
    destruct (Reference.search_prime fuel (c + 1)) as [r|c'].
    { destruct H1 as (Hp & Hle & Hmin). split_and!; [done|lia|].
      intros q Hq Hcq. apply Hmin; [done|]. by apply Hskip. }
    destruct H1 as [-> Hnone]. pose proof (IH (c + 1 + Z.pos fuel)) as H2.
    destruct (Reference.search_prime fuel (c + 1 + Z.pos fuel)) as [r|c''].
    + destruct H2 as (Hp & Hle & Hmin). split_and!; [done|lia|].
      intros q Hq Hcq. apply Hmin; [done|]. apply Hnone; [done|].
      by apply Hskip.
    + destruct H2 as [-> Hnone']. split; [lia|].
      intros q Hq Hcq. apply Hnone'; [done|]. apply Hnone; [done|].
      by apply Hskip.
  - pose proof (IH c) as H1.
    destruct (Reference.search_prime fuel c) as [r|c']; [done|].
    destruct H1 as [-> Hnone]. pose proof (IH (c + Z.pos fuel)) as H2.
    destruct (Reference.search_prime fuel (c + Z.pos fuel)) as [r|c''].
    + destruct H2 as (Hp & Hle & Hmin). split_and!; [done|lia|].
      intros q Hq Hcq. apply Hmin; [done|]. by apply Hnone.
    + destruct H2 as [-> Hnone']. split; [lia|].
      intros q Hq Hcq. apply Hnone'; [done|]. by apply Hnone.
  - destruct (Reference.isprime c) eqn:Hpc.
    + apply reference_isprime_spec in Hpc. split_and!; [done|lia|auto].
    + split; [done|]. by apply Hskip.
Qed.

Lemma reference_nextprime_spec (n : Z) :
  n < Reference.nextprime n ∧ Z.prime (Reference.nextprime n) ∧
  ∀ q, Z.prime q → n < q → Reference.nextprime n ≤ q.
Proof.
  unfold Reference.nextprime. destruct (Z.ltb_spec n 2).
  { split_and!; [lia|apply Z.prime_2|]. intros q Hq%Z.prime_ge_2 _. lia. }
  destruct (euclid n) as (q & Hq & Hnq).
  pose proof (factorial_pos n).
  pose proof (search_prime_spec (Z.to_pos (Reference.factorial n)) (n + 1))
    as Hsearch.
  destruct (Reference.search_prime _ _) as [r|c'].
  - destruct Hsearch as (Hp & Hle & Hmin). split_and!; [lia|done|].
    intros q' Hq' Hnq'. apply Hmin; [done|lia].
  - destruct Hsearch as [-> Hnone]. exfalso.
    specialize (Hnone q Hq ltac:(lia)). rewrite Z2Pos.id in Hnone; lia.
Qed.

Lemma reference_factorint_spec (n p : Z) :
  2 ≤ n → p ∈ dom (Reference.factorint n) ↔ Z.prime p ∧ (p | n).
Proof.
  intros Hn. unfold Reference.factorint.
  assert (∀ (f : Z → nat) (l : list Z), ((λ p, (p, f p)) <$> l).*1 = l)
    as Hkeys.
  { intros f l. induction l as [|a l IH]; csimpl; [done|]. by f_equal. }
  rewrite dom_list_to_map_L, elem_of_list_to_set, Hkeys.
  rewrite list_elem_of_filter, elem_of_seqZ.
  rewrite reference_isprime_spec. split.
  - intros [[Hp Hmod] Hr]. split; [done|]. apply Z.mod_divide; [lia|done].
  - intros [Hp Hdiv]. pose proof (Z.prime_ge_2 p Hp).
    split; [split; [done|]|].
    + apply Z.mod_divide; [lia|done].
    + apply Z.divide_pos_le in Hdiv; lia.
Qed.

Lemma primes_after_spec (k : nat) (p : Z) :
  length (Reference.primes_after k p) = k ∧
  StronglySorted Z.lt (Reference.primes_after k p) ∧
  Forall (λ x, p < x ∧ Z.prime x) (Reference.primes_after k p) ∧
  ∀ x q, x ∈ Reference.primes_after k p → Z.prime q → p < q < x →
         q ∈ Reference.primes_after k p.
Proof.
  revert p. induction k as [|k IH]; intros p; simpl.
  { split_and!; [done|constructor|constructor|]. by intros x q ?%elem_of_nil. }
  destruct (reference_nextprime_spec p) as (Hlt & Hp & Hmin).
  destruct (IH (Reference.nextprime p)) as (Hlen & Hs & Hall & Hclosed).
  split_and!.
  - by rewrite Hlen.
  - constructor; [done|]. eapply Forall_impl; [done|]. by intros x [? _].
  - constructor; [done|]. eapply Forall_impl; [done|].
    intros x [? ?]. split; [lia|done].
  - intros x q Hx Hq Hpq. specialize (Hmin q Hq ltac:(lia)).
    apply elem_of_cons.
    destruct (decide (q = Reference.nextprime p)) as [|Hne]; [by left|right].
    apply elem_of_cons in Hx as [->|Hx]; [lia|].
    apply (Hclosed x); [done..|lia].
Qed.

Lemma primes_after_1 (k : nat) :
  is_first_k_primes k (Reference.primes_after k 1).
Proof.
  destruct (primes_after_spec k 1) as (Hlen & Hs & Hall & Hclosed).
  rewrite Forall_forall in Hall.
  split_and!; [done..| |].
  - intros p Hp. by apply Hall.
  - intros p q Hp Hq Hqp. apply (Hclosed p); [done..|].
    apply Z.prime_ge_2 in Hq. lia.
Qed.

#[export] Instance reference_laws : Sympy.Laws Reference.ops.
Proof.
  split.
  - apply reference_isprime_spec.
  - apply reference_nextprime_spec.
  - apply reference_factorint_spec.
  - intros k Hk. simpl. unfold Reference.prime.
    destruct (Z.ltb_spec k 1); [lia|].
    pose proof (primes_after_1 (Z.to_nat k)) as Hps.
    destruct (last (Reference.primes_after (Z.to_nat k) 1)) as [p|] eqn:Hl.
    + by exists (Reference.primes_after (Z.to_nat k) 1), p.
    + apply last_None in Hl. destruct Hps as [Hlen _].
      rewrite Hl in Hlen. simpl in Hlen. lia.
  - intros k Hk. simpl. unfold Reference.primorial.
    destruct (Z.ltb_spec k 1); [lia|].
    exists (Reference.primes_after (Z.to_nat k) 1).
    split; [apply primes_after_1|done].
Qed.

End reference.

(** ** Least prime factor *)

Section lpf.

Context {O : Sympy.Ops} {L : Sympy.Laws O}.

Lemma foldl_min_spec (a : Z) (l : list Z) :
  (foldl Z.min a l = a ∨ foldl Z.min a l ∈ l) ∧
  foldl Z.min a l ≤ a ∧
  ∀ x, x ∈ l → foldl Z.min a l ≤ x.
Proof.
  revert a. induction l as [|b l IH]; intros a; simpl.
  { split_and!; [by left|done|]. by intros x ?%elem_of_nil. }
  destruct (IH (Z.min a b)) as (Hin & Hle & Hmin). split_and!.
  - destruct Hin as [Heq|Hin].
    + rewrite Heq. destruct (Z.min_spec a b) as [[_ ->]|[_ ->]];
        [by left|right; by left].
    + right. by right.
  - lia.
  - intros x [->|Hx]%elem_of_cons; [lia|by apply Hmin].
Qed.

Lemma py_min_spec (l : list Z) :
  l ≠ [] → ∃ m, py_min l = Ok m ∧ m ∈ l ∧ ∀ x, x ∈ l → m ≤ x.
Proof.
  destruct l as [|a l]; [done|]. intros _. simpl.
  destruct (foldl_min_spec a l) as (Hin & Hle & Hmin).
  eexists. split; [done|]. split.
  - destruct Hin as [->|Hin]; [by left|by right].
  - intros x [->|Hx]%elem_of_cons; [done|by apply Hmin].
Qed.

Lemma lpf_below_2 (n : Z) : n ≤ 1 → lpf n = Ok None.
Proof. intros Hn. unfold lpf. by destruct (Z.leb_spec n 1); [|lia]. Qed.

Lemma lpf_prime (n : Z) : Z.prime n → lpf n = Ok (Some n).
Proof.
  intros Hp. pose proof (Z.prime_ge_2 n Hp). unfold lpf.
  destruct (Z.leb_spec n 1); [lia|].
  by rewrite (proj2 (Sympy.isprime_spec n) Hp).
Qed.

Lemma lpf_composite (n : Z) :
  2 ≤ n → ¬ Z.prime n →
  ∃ p, lpf n = Ok (Some p) ∧ Z.prime p ∧ (p | n) ∧
       ∀ q, Z.prime q → (q | n) → p ≤ q.
Proof.
  intros Hn Hnp. unfold lpf. destruct (Z.leb_spec n 1); [lia|].
  destruct (Sympy.isprime n) eqn:Hisp.
  { by apply Sympy.isprime_spec in Hisp. }
  assert (∀ p, p ∈ elements (dom (Sympy.factorint n)) ↔
               Z.prime p ∧ (p | n)) as Hkeys.
  { intros p. rewrite elem_of_elements. by apply Sympy.factorint_spec. }
  destruct (py_min_spec (elements (dom (Sympy.factorint n))))
    as (m & -> & Hm & Hmin).
  { destruct (prime_divisor_exists n Hn) as (p & Hp).
    apply Hkeys in Hp. intros Hnil. rewrite Hnil in Hp.
    by apply elem_of_nil in Hp. }
  apply Hkeys in Hm as [Hmp Hmn]. exists m. split_and!; [done..|].
  intros q Hq Hqn. apply Hmin, Hkeys. done.
Qed.

(** From 2 on, [lpf] always answers with a number. *)
Lemma lpf_defined (n : Z) : 2 ≤ n → ∃ p, lpf n = Ok (Some p).
Proof.
  intros Hn. destruct (decide (Z.prime n)) as [Hp|Hnp].
  - exists n. by apply lpf_prime.
  - destruct (lpf_composite n Hn Hnp) as (p & Hp & _). by exists p.
Qed.

End lpf.

(** Claim C4: [lpf n] is [None] for [n <= 1]; it is [n] itself for a prime
    [n]; and for a composite [n >= 4] it is a prime divisor of [n] below
    every other prime divisor. *)
Theorem lpf_is_least_prime_factor (O : Sympy.Ops) (L : Sympy.Laws O) (n : Z) :
  (n ≤ 1 → lpf n = Ok None) ∧
  (Z.prime n → lpf n = Ok (Some n)) ∧
  (4 ≤ n → ¬ Z.prime n →
   ∃ p, lpf n = Ok (Some p) ∧ Z.prime p ∧ (p | n) ∧
        ∀ q, Z.prime q → (q | n) → p ≤ q).
Proof.
  split_and!.
  - apply lpf_below_2.
  - apply lpf_prime.
  - intros Hn. apply lpf_composite. lia.
Qed.

Lemma lpf_is_least_prime_factor_witness :
  @lpf Reference.ops 1 = Ok None ∧
  @lpf Reference.ops 17 = Ok (Some 17) ∧
  ∃ p, @lpf Reference.ops 12 = Ok (Some p) ∧ Z.prime p ∧ (p | 12) ∧
       ∀ q, Z.prime q → (q | 12) → p ≤ q.
Proof.
  split_and!.
  - apply (lpf_is_least_prime_factor Reference.ops _ 1). lia.
  - apply (lpf_is_least_prime_factor Reference.ops _ 17).
    by apply reference_isprime_spec.
  - apply (lpf_is_least_prime_factor Reference.ops _ 12); [lia|].
    rewrite <- reference_isprime_spec. by vm_compute.
Defined.

(** ** Frequency tables *)

Section counter.

Implicit Types (m : gmap (option Z) nat) (x : option Z)
  (l : list (option Z)).

Local Abbreviation bump := (λ m x, <[x := S (default O (m !! x))]> m).

Lemma sum_values_empty : sum_values ∅ = 0.
Proof. unfold sum_values. by rewrite map_fold_empty. Qed.

Lemma sum_values_bump m x : sum_values (bump m x) = sum_values m + 1.
Proof.
  unfold sum_values.
  assert (∀ (m' : gmap (option Z) nat) (j1 j2 : option Z) (z1 z2 y : nat),
            j1 ≠ j2 → m' !! j1 = Some z1 → m' !! j2 = Some z2 →
            (z1 + (z2 + y) = z2 + (z1 + y))%nat) as Hcomm by (intros; lia).
  destruct (m !! x) as [c|] eqn:Hx; simpl.
  - rewrite <- (insert_delete_eq m x (S c)).
    rewrite (map_fold_delete_L _ _ x c m); [|by eauto|done].
    rewrite map_fold_insert_L; [lia|by eauto|apply lookup_delete_eq].
  - rewrite map_fold_insert_L; [lia|by eauto|done].
Qed.

Lemma sum_values_foldl m l :
  sum_values (foldl bump m l) = sum_values m + Z.of_nat (length l).
Proof.
  revert m. induction l as [|x l IH]; intros m; simpl; [lia|].
  rewrite IH, sum_values_bump. lia.
Qed.

(** A frequency table counts every element of the list once. *)
Lemma sum_values_Counter l : sum_values (Counter l) = Z.of_nat (length l).
Proof. unfold Counter. by rewrite sum_values_foldl, sum_values_empty. Qed.

Lemma dom_foldl_bump m l x :
  x ∈ dom (foldl bump m l) ↔ x ∈ dom m ∨ x ∈ l.
Proof.
  revert m. induction l as [|y l IH]; intros m; simpl.
  { rewrite elem_of_nil. tauto. }
  rewrite IH, dom_insert, elem_of_union, elem_of_singleton, elem_of_cons.
  tauto.
Qed.

Lemma dom_Counter l x : x ∈ dom (Counter l) ↔ x ∈ l.
Proof.
  unfold Counter. rewrite dom_foldl_bump, dom_empty, elem_of_empty. tauto.
Qed.

End counter.

(** ** The LPF symmetry scan *)

Section symmetry.

Context {O : Sympy.Ops} {L : Sympy.Laws O}.

Lemma length_range_1 (start stop : Z) :
  length (range start stop 1) = Z.to_nat (stop - start).
Proof.
  unfold range. rewrite length_fmap, length_seqZ. f_equal.
  rewrite Z.div_1_r. lia.
Qed.

(** The scan pairs every [x] of [3..N//2 - 1] with [N - x]; neither
    side ever holds [None]. *)
Lemma lpf_scan_spec (N : Z) (verbose : bool) :
  ∃ ls rs, lpf_scan N verbose = Ok (ls, rs) ∧
           length ls = Z.to_nat (N `div` 2 - 3) ∧
           length rs = Z.to_nat (N `div` 2 - 3) ∧
           (None ∉ ls) ∧ (None ∉ rs).
Proof.
  unfold lpf_scan.
  edestruct (for_in_invariant
    (λ (done : list Z) (s : list (option Z) * list (option Z)),
       length (s.1) = length done ∧ length (s.2) = length done ∧
       (None ∉ s.1) ∧ (None ∉ s.2))) as ([ls rs] & Hrun & Hinv);
    [| |exists ls, rs; split; [exact Hrun|]].
  - simpl. split_and!; [done..| |]; by intros ?%elem_of_nil.
  - intros done x rest [ls rs] Hxs (Hl & Hr & Hnl & Hnr). simpl in *.
    assert (x ∈ range 3 (N `div` 2) 1) as Hx.
    { rewrite Hxs, elem_of_app, elem_of_cons. auto. }
    apply elem_of_range in Hx as [Hx _]; [|lia].
    pose proof (Z.mul_div_le N 2 ltac:(lia)).
    destruct (lpf_defined x ltac:(lia)) as (p & ->).
    destruct (lpf_defined (N - x) ltac:(lia)) as (q & ->). simpl.
    rewrite andb_false_r. eexists. split; [done|]. simpl.
    rewrite !length_app, Hl, Hr. simpl.
    split_and!; [done..| |];
      rewrite elem_of_app, list_elem_of_singleton; intros [?|?]; done.
  - simpl in Hinv. rewrite length_range_1 in Hinv. done.
Qed.

Lemma Q2Qc_div_same (z : Z) :
  z ≠ 0 → (Q2Qc (inject_Z z) / Q2Qc (inject_Z z))%Qc = 1%Qc.
Proof.
  intros Hz. apply Qcmult_inv_r. intros Heq.
  apply (Q2Qc_eq_iff (inject_Z z) 0%Q) in Heq.
  unfold Qeq in Heq. simpl in Heq. lia.
Qed.

(** A list of [k >= 3] primes multiplies to at least 8. *)
Lemma list_prod_ge_8 (ps : list Z) :
  (∀ p, p ∈ ps → Z.prime p) → (3 ≤ length ps)%nat → 8 ≤ list_prod ps.
Proof.
  intros Hps Hlen.
  assert (Forall (Z.le 2) ps) as Hall.
  { apply Forall_forall. intros p Hp. by apply Z.prime_ge_2, Hps. }
  destruct Hall as [|a ? Ha [|b ? Hb [|c l Hc Hl]]]; simpl in Hlen; [lia..|].
  assert (1 ≤ list_prod l).
  { apply list_prod_pos. eapply Forall_impl; [done|]. simpl. lia. }
  cbn [list_prod foldr]. fold (list_prod l). nia.
Qed.

Lemma primorial_ge_8 (k : Z) :
  3 ≤ k → ∃ N, Sympy.primorial k = Ok N ∧ 8 ≤ N.
Proof.
  intros Hk. destruct (Sympy.primorial_spec k ltac:(lia))
    as (ps & (Hlen & _ & Hprime & _) & ->).
  eexists. split; [done|]. apply list_prod_ge_8; [done|lia].
Qed.

Lemma primorial_1 : Sympy.primorial 1 = Ok 2.
Proof.
  destruct (Sympy.primorial_spec 1 ltac:(lia)) as (ps & Hps & ->).
  by rewrite (is_first_k_primes_unique _ _ _ Hps first_1_primes).
Qed.

Lemma primorial_2 : Sympy.primorial 2 = Ok 6.
Proof.
  destruct (Sympy.primorial_spec 2 ltac:(lia)) as (ps & Hps & ->).
  by rewrite (is_first_k_primes_unique _ _ _ Hps first_2_primes).
Qed.

(** With the verbose report on, the same calls divide by zero. *)
Lemma verify_lpf_symmetry_empty_verbose (k : Z) :
  k = 1 ∨ k = 2 → verify_lpf_symmetry k true = Raise ZeroDivisionError.
Proof.
  intros Hk. unfold verify_lpf_symmetry.
  destruct (Sympy.prime_spec k ltac:(lia)) as (ps & p & _ & _ & ->).
  destruct Hk as [-> | ->]; rewrite ?primorial_1, ?primorial_2;
    by vm_compute.
Qed.

End symmetry.

(** Claim C6: for every [k >= 3], with [N] the primorial of [k], the scan
    over [x] in [3..N//2 - 1] yields left and right frequency tables whose
    counts both add up to [N // 2 - 3]; the aggregate ratio is the
    quotient of the two totals and equals 1.0. *)
Theorem lpf_symmetry_totals (O : Sympy.Ops) (L : Sympy.Laws O)
    (k : Z) (verbose : bool) (Hk : 3 ≤ k) :
  ∃ r, verify_lpf_symmetry k verbose = Ok r ∧
       Sympy.primorial k = Ok (sym_N r) ∧
       pairs r = sym_N r `div` 2 - 3 ∧
       sum_values (left_counts r) = sym_N r `div` 2 - 3 ∧
       sum_values (right_counts r) = sym_N r `div` 2 - 3 ∧
       ratio r = Float (Q2Qc (inject_Z (sum_values (left_counts r))) /
                        Q2Qc (inject_Z (sum_values (right_counts r)))) ∧
       ratio r = Float 1.
Proof.
  unfold verify_lpf_symmetry.
  destruct (primorial_ge_8 k Hk) as (N & HN & HN8). rewrite HN.
  destruct (Sympy.prime_spec k ltac:(lia)) as (ps & p & _ & _ & ->).
  cbn [mbind result_bind].
  destruct (lpf_scan_spec N verbose) as (ls & rs & -> & Hl & Hr & Hnl & Hnr).
  cbn [mbind result_bind].
  assert (4 ≤ N `div` 2) by (apply Z.div_le_lower_bound; lia).
  assert (sum_values (Counter ls) = N `div` 2 - 3) as Hsl
    by (rewrite sum_values_Counter; lia).
  assert (sum_values (Counter rs) = N `div` 2 - 3) as Hsr
    by (rewrite sum_values_Counter; lia).
  unfold all_lpfs.
  rewrite bool_decide_eq_false_2; [simpl|].
  2:{ rewrite elem_of_union, !dom_Counter. tauto. }
  assert (size (dom (Counter ls) ∪ dom (Counter rs)) ≠ 0%nat) as Hsize.
  { apply size_non_empty_iff. destruct ls as [|x ls]; [simpl in Hl; lia|].
    assert (x ∈ dom (Counter (x :: ls))) by (apply dom_Counter; by left).
    set_solver. }
  destruct (Z.eqb_spec (30 `min` Z.of_nat
              (size (dom (Counter ls) ∪ dom (Counter rs)))) 0); [lia|].
  rewrite andb_false_r. simpl.
  destruct (Z.ltb_spec 0 (sum_values (Counter rs))); [|lia].
  eexists. split; [done|]. simpl. split_and!; [done..|].
  rewrite Hsl, Hsr, Q2Qc_div_same; [done|lia].
Qed.

Lemma lpf_symmetry_totals_witness :
  ∃ r, @verify_lpf_symmetry Reference.ops 3 false = Ok r ∧
       Reference.primorial 3 = Ok (sym_N r) ∧
       pairs r = sym_N r `div` 2 - 3 ∧
       sum_values (left_counts r) = sym_N r `div` 2 - 3 ∧
       sum_values (right_counts r) = sym_N r `div` 2 - 3 ∧
       ratio r = Float (Q2Qc (inject_Z (sum_values (left_counts r))) /
                        Q2Qc (inject_Z (sum_values (right_counts r)))) ∧
       ratio r = Float 1.
Proof. apply (lpf_symmetry_totals Reference.ops _ 3 false). lia. Defined.

(** Claim C10: for [k = 1] and [k = 2] ([N = 2] and [N = 6]) the scan
    range is empty; with the verbose report off the analysis returns
    normally with no pairs and the aggregate ratio [0], not [1.0]. *)
Theorem lpf_symmetry_empty_scan (O : Sympy.Ops) (L : Sympy.Laws O)
    (k : Z) (Hk : k = 1 ∨ k = 2) :
  ∃ r, verify_lpf_symmetry k false = Ok r ∧
       sym_N r = (if decide (k = 1) then 2 else 6) ∧
       pairs r = 0 ∧ ratio r = Int 0 ∧ ratio r ≠ Float 1.
Proof.
  unfold verify_lpf_symmetry.
  destruct (Sympy.prime_spec k ltac:(lia)) as (ps & p & _ & _ & ->).
  destruct Hk as [-> | ->]; rewrite ?primorial_1, ?primorial_2;
    eexists; (split; [by vm_compute|done]).
Qed.

Lemma lpf_symmetry_empty_scan_witness :
  ∃ r, @verify_lpf_symmetry Reference.ops 2 false = Ok r ∧
       sym_N r = (if decide (2 = 1) then 2 else 6) ∧
       pairs r = 0 ∧ ratio r = Int 0 ∧ ratio r ≠ Float 1.
Proof. apply (lpf_symmetry_empty_scan Reference.ops _ 2). by right. Defined.

(** ** The sampling counter *)

Section sampling.

Context {O : Sympy.Ops} {L : Sympy.Laws O}.

Variables N p_end : Z.
Variable max_primes : option Z.

(** Each round moves [p] to a larger prime, so the loop needs at most
    [p_end + 1 - p] rounds; it counts no more than it tests, and a
    positive cap stops it as soon as the cap is reached. *)
Lemma sampling_loop_spec (fuel : nat) (p count tested : Z) :
  (Z.to_nat (p_end + 1 - p) < fuel)%nat →
  ∃ c t, sampling_loop fuel N p_end max_primes p count tested = Some (c, t) ∧
         count ≤ c ∧ tested ≤ t ∧ c - count ≤ t - tested ∧
         ∀ m, max_primes = Some m → 1 ≤ m → tested < m → t ≤ m.
Proof.
  revert p count tested.
  induction fuel as [|fuel IH]; intros p count tested Hfuel; [lia|].
  simpl. destruct (Z.leb_spec p p_end) as [Hp|Hp].
  2:{ exists count, tested. split_and!; [done|lia..]. }
  destruct (Sympy.nextprime_spec p) as (Hnext & _).
  destruct (Sympy.isprime p); simpl.
  - set (count' := if (0 <? N - p) && Sympy.isprime (N - p)
                   then count + 1 else count).
    assert (count ≤ count' ≤ count + 1)
      by (unfold count'; destruct (_ && _); lia).
    destruct (cap_reached max_primes (tested + 1)) eqn:Hcap.
    + exists count', (tested + 1). split_and!; [done|lia..|].
      intros m -> Hm Htested. lia.
    + destruct (IH (Sympy.nextprime p) count' (tested + 1) ltac:(lia))
        as (c & t & -> & Hc & Ht & Hct & Hm).
      exists c, t. split_and!; [done|lia..|].
      intros m -> Hm1 Htested. apply (Hm m); [done..|].
      simpl in Hcap. unfold truthy in Hcap.
      destruct (Z.eqb_spec m 0); [lia|]. simpl in Hcap.
      destruct (Z.leb_spec m (tested + 1)); [done|lia].
  - destruct (IH (Sympy.nextprime p) count tested ltac:(lia))
      as (c & t & -> & Hc & Ht & Hct & Hm).
    exists c, t. split_and!; [done..|]. done.
Qed.

End sampling.

(** Claim C5, amended: for every even [N], every range and every positive
    cap [max_primes], the sampling counter returns [(count, tested)] with
    [0 <= count <= tested <= max_primes]; whatever the cap (none, or zero,
    which the truth test on [max_primes] treats as none), it returns with
    [0 <= count <= tested]. *)
Theorem sampling_count_bounds (O : Sympy.Ops) (L : Sympy.Laws O)
    (fuel : nat) (N p_start p_end : Z) (max_primes : option Z)
    (Heven : N `mod` 2 = 0)
    (Hfuel : (Z.to_nat (p_end + 1 - p_start) < fuel)%nat) :
  ∃ count tested,
    count_goldbach_representations fuel N p_start p_end max_primes
    = Some (Ok (count, tested)) ∧
    0 ≤ count ≤ tested ∧
    ∀ m, max_primes = Some m → 1 ≤ m → tested ≤ m.
Proof.
  unfold count_goldbach_representations. rewrite Heven. simpl.
  destruct (sampling_loop_spec N p_end max_primes fuel p_start 0 0 Hfuel)
    as (c & t & -> & Hc & Ht & Hct & Hm).
  exists c, t. split_and!; [done|lia..|].
  intros m Hmax Hm1. apply (Hm m); [done..|lia].
Qed.

Lemma sampling_count_bounds_witness :
  ∃ count tested,
    @count_goldbach_representations Reference.ops 50 30 7 50 (Some 3)
    = Some (Ok (count, tested)) ∧
    0 ≤ count ≤ tested ∧
    ∀ m, Some 3 = Some m → 1 ≤ m → tested ≤ m.
Proof.
  apply (sampling_count_bounds Reference.ops _ 50 30 7 50 (Some 3));
    [reflexivity|vm_compute; lia].
Defined.

(** Claim C5 as stated fails for the cap 0: on [N = 4] with the primes of
    [2..3] two primes are tested. *)
Lemma sampling_cap_zero_not_applied :
  @count_goldbach_representations Reference.ops 10 4 2 3 (Some 0)
  = Some (Ok (1, 2)) ∧ ¬ (2 ≤ 0).
Proof. split; [by vm_compute|lia]. Qed.

(** Claim C8, amended: for every odd [N] the sampling counter raises
    [ValueError] before its loop runs (no fuel is needed); the exact
    counter raises nothing: for every odd [N] and every [N < 4] it returns
    0 without reading the table. *)
Theorem odd_input_handling (O : Sympy.Ops) (N : Z) :
  (Z.Odd N →
   ∀ fuel p_start p_end max_primes,
     count_goldbach_representations fuel N p_start p_end max_primes
     = Some (Raise ValueError)) ∧
  (Z.Odd N ∨ N < 4 → ∀ is_prime, goldbach_count N is_prime = Ok 0).
Proof.
  assert (Z.Odd N → N `mod` 2 = 1) as Hodd.
  { intros [c ->]. rewrite Z.add_comm, Z.mul_comm, Z.mod_add; done. }
  split.
  - intros HN fuel p_start p_end max_primes.
    unfold count_goldbach_representations. by rewrite (Hodd HN).
  - intros HN is_prime. unfold goldbach_count.
    destruct HN as [HN|HN].
    + rewrite (Hodd HN). by rewrite orb_true_r.
    + by destruct (Z.ltb_spec N 4); [|lia].
Qed.

Lemma odd_input_handling_witness :
  (∀ fuel p_start p_end max_primes,
     @count_goldbach_representations Reference.ops fuel 15 p_start p_end
       max_primes = Some (Raise ValueError)) ∧
  (∀ is_prime, goldbach_count 15 is_prime = Ok 0).
Proof.
  assert (Z.Odd 15) as Hodd by (exists 7; lia).
  destruct (odd_input_handling Reference.ops 15) as [Hs He].
  split; [by apply Hs|apply He; by left].
Defined.

(** Claim C8 as stated fails for the exact counter: on the odd [N = 5] it
    returns 0 and raises nothing. *)
Lemma exact_count_odd_returns_zero :
  (t ← sieve_is_prime 5; goldbach_count 5 t) = Ok 0 ∧
  ∀ e, (t ← sieve_is_prime 5; goldbach_count 5 t) ≠ Raise e.
Proof. split; [by vm_compute|]. intros e. by vm_compute. Qed.

(** ** The amplification figures *)

#[export] Instance rational_laws : Double.Laws Rational.ops.
Proof.
  split.
  - done.
  - intros [a|]; simpl; [|done]. intros Ha.
    apply bool_decide_eq_true in Ha. apply bool_decide_eq_false.
    intros ->. by apply Qclt_not_eq in Ha.
  - intros n Hn. simpl. apply bool_decide_eq_false.
    assert (1 ≤ Z.log2 n) as Hl.
    { change 1 with (Z.log2 2). apply Z.log2_le_mono. lia. }
    intros Heq. change 0%Qc with (Q2Qc 0) in Heq.
    apply Q2Qc_eq_iff in Heq. unfold Qeq in Heq. simpl in Heq. lia.
Qed.



(** * Further properties of goldbach_count.py *)

(** ** Prime lists and tables *)

Section more_tables.

Lemma getitem_out_of_range (t : list Z) (i : Z) :
  Z.of_nat (length t) ≤ i → getitem t i = Raise IndexError.
Proof.
  intros Hi. unfold getitem, position.
  destruct (Z.ltb_spec i 0); [lia|]. destruct (Z.ltb_spec i 0); [lia|].
  by rewrite lookup_ge_None_2 by lia.
Qed.

Lemma getitem_in_range (t : list Z) (i : Z) :
  0 ≤ i < Z.of_nat (length t) → ∃ v, getitem t i = Ok v.
Proof.
  intros Hi. destruct (lookup_lt_is_Some_2 t (Z.to_nat i)) as [v Hv]; [lia|].
  exists v. apply getitem_Ok; [lia|done].
Qed.

(** A loop that only reads the table raises as soon as one of its
    indices lies beyond the end. *)
Lemma for_in_read_beyond {S} (t : list Z) (xs : list Z)
    (step : S → Z → Z → S) (s : S) :
  (∀ x, x ∈ xs → 0 ≤ x) →
  (∃ x, x ∈ xs ∧ Z.of_nat (length t) ≤ x) →
  for_in xs (λ s i, v ← getitem t i; Ok (step s i v)) s = Raise IndexError.
Proof.
  revert s. induction xs as [|x xs IH]; intros s Hpos (y & Hy & Hlen).
  { by apply elem_of_nil in Hy. }
  simpl. destruct (Z.lt_ge_cases x (Z.of_nat (length t))) as [Hx|Hx].
  - destruct (getitem_in_range t x) as (v & ->).
    { split; [|done]. apply Hpos. by left. }
    simpl. apply IH.
    + intros z Hz. apply Hpos. by right.
    + apply elem_of_cons in Hy as [->|Hy]; [lia|]. by exists y.
  - by rewrite getitem_out_of_range.
Qed.

End more_tables.

(** For every integer [n], [primes_up_to n] (sieving for itself) returns
    the strictly increasing list of exactly the primes [<= n]; below 2
    it returns the empty list without sieving. *)
Theorem primes_up_to_lists_the_primes (n : Z) :
  ∃ ps, primes_up_to n None = Ok ps ∧
        StronglySorted Z.lt ps ∧
        ∀ p, p ∈ ps ↔ Z.prime p ∧ p ≤ n.
Proof.
  unfold primes_up_to. destruct (Z.ltb_spec n 2) as [Hn|Hn].
  - exists []. split_and!; [done|constructor|]. intros p.
    rewrite elem_of_nil. split; [done|]. intros [Hp%Z.prime_ge_2 ?]. lia.
  - destruct (sieve_correct n Hn) as (t & -> & Ht). simpl.
    rewrite (collect_marked n);
      [|by apply is_prime_table_correct_on|intros x Hx%elem_of_range; lia].
    exists (primes_list n). split_and!; [done|apply primes_list_sorted|].
    intros p. by apply elem_of_primes_list.
Qed.

(** Given a table that misses one of the odd indices of [3..n],
    [primes_up_to] raises [IndexError]. *)
Theorem primes_up_to_short_table (n : Z) (t : list Z)
    (Hn : 3 ≤ n) (Hlen : Z.of_nat (length t) < n) :
  primes_up_to n (Some t) = Raise IndexError.
Proof.
  unfold primes_up_to. destruct (Z.ltb_spec n 2); [lia|]. simpl.
  rewrite (for_in_read_beyond t _
             (λ acc i v, if truthy v then acc ++ [i] else acc)); [done| |].
  - intros x Hx%elem_of_range; lia.
  - destruct (Z.Even_or_Odd n) as [[c Hc]|[c Hc]].
    + exists (n - 1). split; [|lia]. apply elem_of_range; [lia|].
      split; [lia|]. exists (c - 2). lia.
    + exists n. split; [|lia]. apply elem_of_range; [lia|].
      split; [lia|]. exists (c - 1). lia.
Qed.

Lemma primes_up_to_short_table_witness :
  primes_up_to 5 (Some [0; 0; 1; 1]) = Raise IndexError.
Proof. apply primes_up_to_short_table; simpl; lia. Defined.

(** The table sieved for a bound serves every smaller bound: its first
    [m + 1] entries are the table sieved for [m]. *)
Theorem sieve_prefix (m n : Z) (t : list Z)
    (Hm : 2 ≤ m ≤ n) (Hrun : sieve_is_prime n = Ok t) :
  sieve_is_prime m = Ok (take (Z.to_nat (m + 1)) t).
Proof.
  destruct (sieve_correct n ltac:(lia)) as (t' & Hrun' & Hlen & Hget).
  assert (t' = t) as -> by congruence.
  destruct (sieve_correct m ltac:(lia)) as (tm & -> & Hlenm & Hgetm).
  f_equal. apply list_eq. intros i.
  destruct (decide (i < Z.to_nat (m + 1))%nat) as [Hi|Hi].
  - rewrite lookup_take_lt by done.
    specialize (Hgetm (Z.of_nat i) ltac:(lia)).
    specialize (Hget (Z.of_nat i) ltac:(lia)).
    rewrite Nat2Z.id in Hgetm, Hget. congruence.
  - rewrite lookup_ge_None_2 by lia.
    rewrite lookup_ge_None_2; [done|]. rewrite length_take. lia.
Qed.

Lemma sieve_prefix_witness :
  sieve_is_prime 3 = Ok (take (Z.to_nat (3 + 1)) [0; 0; 1; 1; 0; 1; 0; 1]).
Proof. apply (sieve_prefix 3 7); [lia|reflexivity]. Defined.

(** ** Prefixes of the prime list and primorials *)

Section primorials.

Lemma is_first_k_primes_take (k j : nat) (ps : list Z) :
  is_first_k_primes k ps → (j ≤ k)%nat → is_first_k_primes j (take j ps).
Proof.
  intros (Hlen & Hs & Hp & Hc) Hj. split_and!.
  - rewrite length_take. lia.
  - by apply StronglySorted_take.
  - intros p Hin%subseteq_take. by apply Hp.
  - intros p q Hin Hq Hqp. apply (elem_of_take_sorted j ps p q); [done..| |done].
    apply (Hc p); [by apply subseteq_take in Hin|done..].
Qed.

Lemma slice_to_take {A} (l : list A) (k : Z) :
  0 ≤ k → slice_to l k = take (Z.to_nat k) l.
Proof. intros Hk. unfold slice_to. by destruct (Z.ltb_spec k 0); [lia|]. Qed.

Lemma slice_to_first (kmax k : Z) (ps : list Z) :
  is_first_k_primes (Z.to_nat kmax) ps → 0 ≤ k ≤ kmax →
  is_first_k_primes (Z.to_nat k) (slice_to ps k).
Proof.
  intros Hps Hk. rewrite slice_to_take by lia.
  apply (is_first_k_primes_take (Z.to_nat kmax)); [done|lia].
Qed.

Lemma foldl_mul (a : Z) (ps : list Z) :
  foldl (λ n p, n * p) a ps = a * list_prod ps.
Proof.
  revert a. induction ps as [|p ps IH]; intros a; simpl; [lia|].
  rewrite IH. unfold list_prod. lia.
Qed.

Lemma primorial_from_primes_prod (ps : list Z) :
  primorial_from_primes ps = list_prod ps.
Proof. unfold primorial_from_primes. rewrite foldl_mul. lia. Qed.

Lemma list_prod_app (l1 l2 : list Z) :
  list_prod (l1 ++ l2) = list_prod l1 * list_prod l2.
Proof.
  induction l1 as [|a l1 IH]; simpl; [lia|].
  unfold list_prod in *. simpl. rewrite IH. lia.
Qed.

Lemma list_prod_ge_pow (l : list Z) :
  Forall (Z.le 2) l → 2 ^ Z.of_nat (length l) ≤ list_prod l.
Proof.
  induction 1 as [|a l Ha Hl IH]; [done|].
  rewrite length_cons, Nat2Z.inj_succ, Z.pow_succ_r by lia.
  change (list_prod (a :: l)) with (a * list_prod l).
  assert (0 < 2 ^ Z.of_nat (length l)) by (apply Z.pow_pos_nonneg; lia). nia.
Qed.

Lemma first_primes_ge_2 (k : nat) (ps : list Z) :
  is_first_k_primes k ps → Forall (Z.le 2) ps.
Proof.
  intros (_ & _ & Hp & _). apply Forall_forall. intros p Hin.
  by apply Z.prime_ge_2, Hp.
Qed.

Lemma first_primes_contain_2 (k : nat) (ps : list Z) :
  is_first_k_primes k ps → (1 ≤ k)%nat → 2 ∈ ps.
Proof.
  intros (Hlen & _ & Hp & Hc) Hk. destruct ps as [|p ps]; [simpl in Hlen; lia|].
  assert (p ∈ p :: ps) as Hin by (by left).
  pose proof (Z.prime_ge_2 p (Hp p Hin)).
  destruct (decide (p = 2)) as [->|]; [done|].
  apply (Hc p); [done|apply Z.prime_2|lia].
Qed.

End primorials.

(** Asked for [k <= kmax] primes, the generator returns the [k]-prefix of
    what it returns for [kmax]: slicing [first_k_primes(kmax)[:k]] is the
    same as calling [first_k_primes(k)]. *)
Theorem first_k_primes_prefix (estimate : Z → Z)
    (Hest : ∀ k, 6 ≤ k → 0 ≤ estimate k) (k kmax : Z) (Hk : 0 ≤ k ≤ kmax) :
  ∃ (fuel0 : nat) (ps : list Z),
    ∀ fuel, (fuel0 ≤ fuel)%nat →
      first_k_primes estimate fuel kmax = Some (Ok ps) ∧
      first_k_primes estimate fuel k = Some (Ok (slice_to ps k)).
Proof.
  destruct (first_k_primes_result estimate kmax Hest ltac:(lia))
    as (f1 & ps & Hrun1 & _ & Hps).
  destruct (first_k_primes_result estimate k Hest ltac:(lia))
    as (f2 & ps' & Hrun2 & _ & Hps').
  exists (f1 `max` f2)%nat, ps. intros fuel Hfuel.
  split; [apply Hrun1; lia|]. rewrite Hrun2 by lia.
  rewrite slice_to_take by lia. do 2 f_equal.
  apply (is_first_k_primes_unique (Z.to_nat k)); [done|].
  apply (is_first_k_primes_take (Z.to_nat kmax)); [done|lia].
Qed.

Lemma first_k_primes_prefix_witness :
  ∃ (fuel0 : nat) (ps : list Z),
    ∀ fuel, (fuel0 ≤ fuel)%nat →
      first_k_primes (λ _, 22) fuel 8 = Some (Ok ps) ∧
      first_k_primes (λ _, 22) fuel 3 = Some (Ok (slice_to ps 3)).
Proof. apply first_k_primes_prefix; [intros; lia|lia]. Defined.

(** The primorial of the first [k] primes is at least [2 ^ k], is
    divisible by each of them, is even as soon as [k >= 1], and is
    strictly larger than the primorial of any shorter prefix. *)
Theorem primorial_of_first_primes (k : nat) (ps : list Z)
    (Hps : is_first_k_primes k ps) :
  2 ^ Z.of_nat k ≤ primorial_from_primes ps ∧
  (∀ p, p ∈ ps → (p | primorial_from_primes ps)) ∧
  ((1 ≤ k)%nat → primorial_from_primes ps `mod` 2 = 0) ∧
  (∀ j, (j < k)%nat →
        primorial_from_primes (take j ps) < primorial_from_primes ps).
Proof.
  pose proof (first_primes_ge_2 k ps Hps) as Hge.
  pose proof Hps as (Hlen & _).
  rewrite primorial_from_primes_prod. split_and!.
  - rewrite <- Hlen. by apply list_prod_ge_pow.
  - intros p Hp. by apply divide_list_prod.
  - intros Hk. apply Z.mod_divide; [done|].
    apply divide_list_prod. by apply (first_primes_contain_2 k).
  - intros j Hj. rewrite primorial_from_primes_prod.
    rewrite <- (take_drop j ps) at 2. rewrite list_prod_app.
    assert (1 ≤ list_prod (take j ps)).
    { apply list_prod_pos. eapply Forall_impl; [by apply Forall_take|].
      simpl. lia. }
    assert (2 ^ Z.of_nat (length (drop j ps)) ≤ list_prod (drop j ps))
      by (by apply list_prod_ge_pow, Forall_drop).
    assert (2 ^ 1 ≤ 2 ^ Z.of_nat (length (drop j ps))).
    { apply Z.pow_le_mono_r; [lia|]. rewrite length_drop. lia. }
    nia.
Qed.

Lemma primorial_of_first_primes_witness :
  2 ^ Z.of_nat 2 ≤ primorial_from_primes [2; 3] ∧
  (∀ p, p ∈ [2; 3] → (p | primorial_from_primes [2; 3])) ∧
  ((1 ≤ 2)%nat → primorial_from_primes [2; 3] `mod` 2 = 0) ∧
  (∀ j, (j < 2)%nat →
        primorial_from_primes (take j [2; 3]) < primorial_from_primes [2; 3]).
Proof. apply primorial_of_first_primes, first_2_primes. Defined.

(** ** The exact count on any table *)

Section count_bounds.

Variable N : Z.
Variable t : list Z.
Hypothesis long_enough : N < Z.of_nat (length t).

(** Whatever the table holds, each candidate adds at most one. *)
Lemma count_loop_bounds (xs : list Z) (count : Z) :
  (∀ x, x ∈ xs → 0 ≤ x ≤ N) →
  ∃ c, for_in xs
         (λ count p,
            a ← getitem t p;
            if truthy a
            then b ← getitem t (N - p);
                 Ok (if truthy b then count + 1 else count)
            else Ok count)
         count = Ok c ∧
       count ≤ c ≤ count + Z.of_nat (length xs).
Proof.
  revert count. induction xs as [|x xs IH]; intros count Hxs; simpl.
  { exists count. split; [done|lia]. }
  assert (0 ≤ x ≤ N) as Hx by (apply Hxs; by left).
  destruct (getitem_in_range t x ltac:(lia)) as (a & ->).
  destruct (getitem_in_range t (N - x) ltac:(lia)) as (b & Hb). simpl.
  assert (∀ count', count ≤ count' ≤ count + 1 →
            ∃ c, for_in xs
                   (λ count p,
                      a ← getitem t p;
                      if truthy a
                      then b ← getitem t (N - p);
                           Ok (if truthy b then count + 1 else count)
                      else Ok count)
                   count' = Ok c ∧
                 count ≤ c ≤ count + Z.of_nat (S (length xs))) as Hrest.
  { intros count' Hc'.
    destruct (IH count') as (c & -> & Hc); [intros y Hy; apply Hxs; by right|].
    exists c. split; [done|lia]. }
  destruct (truthy a); [|apply Hrest; lia].
  rewrite Hb. simpl. destruct (truthy b); apply Hrest; lia.
Qed.

End count_bounds.

(** On any table with more than [N] entries, whatever they hold, the
    exact counter raises nothing and returns a count between 0 and
    [N // 2]. *)
Theorem goldbach_count_in_bounds (N : Z) (t : list Z)
    (Hlen : N < Z.of_nat (length t)) :
  ∃ c, goldbach_count N t = Ok c ∧ 0 ≤ c ≤ Z.max 0 (N `div` 2).
Proof.
  unfold goldbach_count.
  destruct ((N <? 4) || (N `mod` 2 =? 1)) eqn:Hguard.
  { exists 0. split; [done|lia]. }
  apply orb_false_iff in Hguard as [HN%Z.ltb_ge _].
  assert (2 ≤ N `div` 2) by (apply Z.div_le_lower_bound; lia).
  assert (N `div` 2 ≤ N) by (apply Z.div_le_upper_bound; lia).
  destruct (Z.leb_spec 2 (N `div` 2)); [|lia].
  destruct (getitem_in_range t 2 ltac:(lia)) as (a & ->).
  destruct (getitem_in_range t (N - 2) ltac:(lia)) as (b & Hb). simpl.
  assert (Z.of_nat (length (range 3 (N `div` 2 + 1) 2)) ≤ N `div` 2 - 1)
    as Hcands.
  { unfold range. rewrite length_fmap, length_seqZ.
    assert ((N `div` 2 + 1 - 3 + 2 - 1) `div` 2 ≤ N `div` 2 - 1); [|lia].
    apply Z.div_le_upper_bound; lia. }
  assert (∀ c0, 0 ≤ c0 ≤ 1 →
    ∃ c, for_in (range 3 (N `div` 2 + 1) 2)
           (λ count p,
              a ← getitem t p;
              if truthy a
              then b ← getitem t (N - p);
                   Ok (if truthy b then count + 1 else count)
              else Ok count) c0 = Ok c ∧
         0 ≤ c ≤ Z.max 0 (N `div` 2)) as Hloop.
  { intros c0 Hc0.
    destruct (count_loop_bounds N t Hlen (range 3 (N `div` 2 + 1) 2) c0)
      as (c & -> & Hc); [intros x Hx%elem_of_range; lia|].
    exists c. split; [done|lia]. }
  destruct (truthy a); [|apply Hloop; lia].
  rewrite Hb. simpl. destruct (truthy b); apply Hloop; lia.
Qed.

Lemma goldbach_count_in_bounds_witness :
  ∃ c, goldbach_count 6 [1; 1; 1; 1; 1; 1; 1] = Ok c ∧
       0 ≤ c ≤ Z.max 0 (6 `div` 2).
Proof. apply goldbach_count_in_bounds. simpl. lia. Defined.

(** ** The table of counts *)

Section compute_table.

Lemma foldl_max_spec (a : Z) (l : list Z) :
  (foldl Z.max a l = a ∨ foldl Z.max a l ∈ l) ∧
  a ≤ foldl Z.max a l ∧
  ∀ x, x ∈ l → x ≤ foldl Z.max a l.
Proof.
  revert a. induction l as [|b l IH]; intros a; simpl.
  { split_and!; [by left|done|]. by intros x ?%elem_of_nil. }
  destruct (IH (Z.max a b)) as (Hin & Hle & Hmax). split_and!.
  - destruct Hin as [Heq|Hin].
    + rewrite Heq. destruct (Z.max_spec a b) as [[_ ->]|[_ ->]];
        [right; by left|by left].
    + right. by right.
  - lia.
  - intros x [->|Hx]%elem_of_cons; [lia|by apply Hmax].
Qed.

Lemma py_max_spec (l : list Z) :
  l ≠ [] → ∃ m, py_max l = Ok m ∧ m ∈ l ∧ ∀ x, x ∈ l → x ≤ m.
Proof.
  destruct l as [|a l]; [done|]. intros _. simpl.
  destruct (foldl_max_spec a l) as (Hin & Hle & Hmax).
  eexists. split; [done|]. split.
  - destruct Hin as [->|Hin]; [by left|by right].
  - intros x [->|Hx]%elem_of_cons; [done|by apply Hmax].
Qed.

(** A loop raises what its first failing item raises. *)
Lemma for_in_raises_at {A S} (pre : list A) (x : A) (post : list A)
    (body : S → A → result S) (s : S) (e : exn) :
  (∀ s y, y ∈ pre → ∃ s', body s y = Ok s') →
  (∀ s, body s x = Raise e) →
  for_in (pre ++ x :: post) body s = Raise e.
Proof.
  intros Hpre Hx. revert s. induction pre as [|y pre IH]; intros s; simpl.
  { by rewrite Hx. }
  destruct (Hpre s y) as (s' & ->); [by left|]. simpl.
  apply IH. intros s'' z Hz. apply Hpre. by right.
Qed.

Lemma split_at_first {A} (P : A → Prop) `{!∀ x, Decision (P x)}
    (l : list A) :
  (∃ x, x ∈ l ∧ P x) →
  ∃ pre x post, l = pre ++ x :: post ∧ P x ∧ ∀ y, y ∈ pre → ¬ P y.
Proof.
  induction l as [|a l IH]; intros (x & Hx & HP).
  { by apply elem_of_nil in Hx. }
  destruct (decide (P a)) as [Ha|Ha].
  { exists [], a, l. split_and!; [done..|]. by intros y ?%elem_of_nil. }
  destruct IH as (pre & z & post & -> & Hz & Hpre).
  { apply elem_of_cons in Hx as [->|Hx]; [done|]. by exists x. }
  exists (a :: pre), z, post. split_and!; [done..|].
  intros y [->|Hy]%elem_of_cons; [done|by apply Hpre].
Qed.

(** On an even [N >= 4] and a correct table the count is [G(N)]. *)
Lemma goldbach_count_on_table (N : Z) (t : list Z) :
  correct_on N t → 4 ≤ N → N `mod` 2 = 0 →
  goldbach_count N t = Ok (Z.of_nat (length (goldbach_pairs N))).
Proof.
  intros Ht HN Heven. unfold goldbach_count.
  assert (2 ≤ N `div` 2) by (apply Z.div_le_lower_bound; lia).
  assert (N `div` 2 ≤ N) by (apply Z.div_le_upper_bound; lia).
  destruct (Z.ltb_spec N 4); [lia|]. rewrite Heven. simpl.
  destruct (Z.leb_spec 2 (N `div` 2)); [|lia].
  destruct (correct_on_getitem N t 2 Ht ltac:(lia)) as (a & -> & Ha).
  destruct (correct_on_getitem N t (N - 2) Ht ltac:(lia)) as (b & Hb & Hb').
  simpl. rewrite Ha, bool_decide_eq_true_2 by apply Z.prime_2.
  rewrite Hb. simpl.
  rewrite (count_loop N t Ht) by (intros x Hx%elem_of_range; lia).
  rewrite goldbach_pairs_candidates by done.
  rewrite filter_cons, Hb'. f_equal.
  destruct (decide (Z.prime (N - 2))) as [Hq|Hq].
  - rewrite bool_decide_eq_true_2 by done.
    rewrite decide_True by (split; [apply Z.prime_2|done]). simpl. lia.
  - rewrite bool_decide_eq_false_2 by done.
    rewrite decide_False by tauto. lia.
Qed.

(** Sieving up to an even [N >= 2] and counting gives [G(N)]. *)
Lemma goldbach_count_sieved (N : Z) :
  2 ≤ N → N `mod` 2 = 0 →
  (t ← sieve_is_prime N; goldbach_count N t)
  = Ok (Z.of_nat (length (goldbach_pairs N))).
Proof.
  intros HN Heven. destruct (decide (N = 2)) as [->|Hne].
  - unfold goldbach_pairs. change (seqZ 0 (2 `div` 2 + 1)) with [0; 1].
    rewrite !filter_cons, filter_nil.
    rewrite decide_False by (intros [?%Z.not_prime_0 _]; done).
    rewrite decide_False by (intros [?%Z.not_prime_1 _]; done).
    by vm_compute.
  - assert (N ≠ 3) by (intros ->; done).
    destruct (sieve_correct N HN) as (t & -> & Ht). simpl.
    apply goldbach_count_on_table; [|lia|done].
    by apply is_prime_table_correct_on.
Qed.

Variable ps : list Z.
Variable kmax : Z.
Hypothesis ps_first : is_first_k_primes (Z.to_nat kmax) ps.

Local Abbreviation row_body maxN :=
  (λ (rows : list (Z * Z * Z)) (k : Z),
     let N := primorial_from_primes (slice_to ps k) in
     if match maxN with
        | Some m => m <? N
        | None => false
        end
     then Raise ValueError
     else
       is_prime ← sieve_is_prime N;
       g ← goldbach_count N is_prime;
       Ok (rows ++ [(k, N, g)])).

(** One row, for an index [k] of [1..kmax] whose primorial fits. *)
Lemma compute_row (maxN : option Z) (rows : list (Z * Z * Z)) (k : Z) :
  1 ≤ k ≤ kmax →
  (∀ m, maxN = Some m → primorial_from_primes (slice_to ps k) ≤ m) →
  is_first_k_primes (Z.to_nat k) (slice_to ps k) ∧
  row_body maxN rows k
  = Ok (rows ++ [(k, primorial_from_primes (slice_to ps k),
                  Z.of_nat (length (goldbach_pairs
                    (primorial_from_primes (slice_to ps k)))))]).
Proof.
  intros Hk Hfits.
  assert (is_first_k_primes (Z.to_nat k) (slice_to ps k)) as Hpk.
  { rewrite slice_to_take by lia.
    apply (is_first_k_primes_take (Z.to_nat kmax)); [done|lia]. }
  split; [done|]. simpl.
  set (N := primorial_from_primes (slice_to ps k)) in *.
  assert (2 ≤ N) as HN.
  { pose proof (list_prod_ge_pow _ (first_primes_ge_2 _ _ Hpk)) as Hpow.
    destruct Hpk as (Hlen & _). rewrite Hlen in Hpow.
    assert (2 ^ 1 ≤ 2 ^ Z.of_nat (Z.to_nat k))
      by (apply Z.pow_le_mono_r; lia).
    unfold N. rewrite primorial_from_primes_prod. lia. }
  assert (N `mod` 2 = 0) as Heven.
  { apply Z.mod_divide; [done|]. unfold N.
    rewrite primorial_from_primes_prod. apply divide_list_prod.
    apply (first_primes_contain_2 (Z.to_nat k)); [done|lia]. }
  assert (match maxN with Some m => m <? N | None => false end = false)
    as ->.
  { destruct maxN as [m|]; [|done]. apply Z.ltb_ge. by apply Hfits. }
  pose proof (goldbach_count_sieved N HN Heven) as Hg.
  destruct (sieve_is_prime N) as [t|e]; [|done]. simpl in *.
  by rewrite Hg.
Qed.

End compute_table.

(** For a non-empty list of indices [k >= 1] whose primorials fit under
    [maxN] (when one is given), [compute_table] returns one row per index,
    in order: [k], the primorial [N] of the first [k] primes, and the
    number of Goldbach representations of [N]. *)
Theorem compute_table_rows (estimate : Z → Z)
    (Hest : ∀ k, 6 ≤ k → 0 ≤ estimate k)
    (k_values : list Z) (maxN : option Z)
    (Hne : k_values ≠ [])
    (Hpos : ∀ k, k ∈ k_values → 1 ≤ k)
    (Hfits : ∀ m k ps, maxN = Some m → k ∈ k_values →
               is_first_k_primes (Z.to_nat k) ps →
               primorial_from_primes ps ≤ m) :
  ∃ (fuel0 : nat) (rows : list (Z * Z * Z)),
    (∀ fuel, (fuel0 ≤ fuel)%nat →
             compute_table estimate fuel k_values maxN = Some (Ok rows)) ∧
    Forall2
      (λ k row, ∃ ps, is_first_k_primes (Z.to_nat k) ps ∧
                      row = (k, primorial_from_primes ps,
                             Z.of_nat (length (goldbach_pairs
                               (primorial_from_primes ps)))))
      k_values rows.
Proof.
  destruct (py_max_spec k_values Hne) as (kmax & Hmax & Hin & Hle).
  destruct (first_k_primes_result estimate kmax Hest)
    as (fuel0 & ps & Hrun & _ & Hps).
  { specialize (Hpos kmax Hin). lia. }
  edestruct (for_in_invariant
    (λ (done : list Z) (rows : list (Z * Z * Z)),
       Forall2
         (λ k row, ∃ ps, is_first_k_primes (Z.to_nat k) ps ∧
                         row = (k, primorial_from_primes ps,
                                Z.of_nat (length (goldbach_pairs
                                  (primorial_from_primes ps)))))
         done rows)) as (rows & Hloop & Hrows); [| |exists fuel0, rows].
  - apply Forall2_nil_2.
  - intros done k rest rows Hks Hinv.
    assert (k ∈ k_values) as Hk.
    { rewrite Hks, elem_of_app, elem_of_cons. auto. }
    assert (1 ≤ k ≤ kmax) as Hrange
      by (split; [by apply Hpos|by apply Hle]).
    destruct (compute_row ps kmax Hps maxN rows k) as (Hpk & Hrow);
      [done| |].
    + intros m Hm. apply (Hfits m k); [done..|].
      apply (slice_to_first kmax); [done|lia].
    + eexists. split; [exact Hrow|].
      apply Forall2_app; [done|]. apply Forall2_cons_2; [|done].
      by eexists.
  - split; [|done]. intros fuel Hfuel. unfold compute_table.
    rewrite Hmax, (Hrun fuel Hfuel). cbv beta iota. f_equal. exact Hloop.
Qed.

Lemma compute_table_rows_witness :
  ∃ (fuel0 : nat) (rows : list (Z * Z * Z)),
    (∀ fuel, (fuel0 ≤ fuel)%nat →
             compute_table (λ _, 22) fuel [1; 2] (Some 6) = Some (Ok rows)) ∧
    Forall2
      (λ k row, ∃ ps, is_first_k_primes (Z.to_nat k) ps ∧
                      row = (k, primorial_from_primes ps,
                             Z.of_nat (length (goldbach_pairs
                               (primorial_from_primes ps)))))
      [1; 2] rows.
Proof.
  apply compute_table_rows; [intros; lia|done| |].
  - intros k Hk. repeat (apply elem_of_cons in Hk as [->|Hk]; [lia|]).
    by apply elem_of_nil in Hk.
  - intros m k ps [= <-] Hk Hps.
    apply elem_of_cons in Hk as [->|Hk].
    { by rewrite (is_first_k_primes_unique _ _ _ Hps first_1_primes). }
    apply elem_of_cons in Hk as [->|Hk].
    { by rewrite (is_first_k_primes_unique _ _ _ Hps first_2_primes). }
    by apply elem_of_nil in Hk.
Defined.

(** An index 0 among non-negative indices makes [compute_table] raise
    [IndexError]: the empty product is 1 and [sieve_is_prime(1)] stores
    out of range. *)
Theorem compute_table_zero_index (estimate : Z → Z)
    (Hest : ∀ k, 6 ≤ k → 0 ≤ estimate k) (k_values : list Z)
    (Hzero : 0 ∈ k_values) (Hnonneg : ∀ k, k ∈ k_values → 0 ≤ k) :
  ∃ fuel0 : nat,
    ∀ fuel, (fuel0 ≤ fuel)%nat →
            compute_table estimate fuel k_values None
            = Some (Raise IndexError).
Proof.
  assert (k_values ≠ []) as Hne by (intros ->; by apply elem_of_nil in Hzero).
  destruct (py_max_spec k_values Hne) as (kmax & Hmax & Hin & Hle).
  destruct (first_k_primes_result estimate kmax Hest)
    as (fuel0 & ps & Hrun & _ & Hps); [by apply Hnonneg|].
  destruct (split_at_first (λ k, k = 0) k_values)
    as (pre & z & post & Hks & -> & Hpre); [by exists 0|].
  exists fuel0. intros fuel Hfuel. unfold compute_table.
  rewrite Hmax, (Hrun fuel Hfuel). cbv beta iota. f_equal. rewrite Hks.
  apply for_in_raises_at.
  - intros rows k Hk. eexists.
    apply (compute_row ps kmax Hps None rows k); [|done].
    assert (k ∈ k_values) by (rewrite Hks, elem_of_app; auto).
    specialize (Hpre k Hk). specialize (Hnonneg k ltac:(done)).
    split; [lia|by apply Hle].
  - intros rows. by rewrite slice_to_take by lia.
Qed.

Lemma compute_table_zero_index_witness :
  ∃ fuel0 : nat,
    ∀ fuel, (fuel0 ≤ fuel)%nat →
            compute_table (λ _, 22) fuel [3; 0; 2] None
            = Some (Raise IndexError).
Proof.
  apply compute_table_zero_index; [intros; lia| |].
  - apply elem_of_cons. right. by left.
  - intros k Hk. repeat (apply elem_of_cons in Hk as [->|Hk]; [lia|]).
    by apply elem_of_nil in Hk.
Defined.

(** When some index [k >= 1] has a primorial above [maxN],
    [compute_table] raises [ValueError] and returns no table. *)
Theorem compute_table_maxN_exceeded (estimate : Z → Z)
    (Hest : ∀ k, 6 ≤ k → 0 ≤ estimate k) (k_values : list Z) (m : Z)
    (Hpos : ∀ k, k ∈ k_values → 1 ≤ k)
    (Hbig : ∃ k ps, k ∈ k_values ∧ is_first_k_primes (Z.to_nat k) ps ∧
                    m < primorial_from_primes ps) :
  ∃ fuel0 : nat,
    ∀ fuel, (fuel0 ≤ fuel)%nat →
            compute_table estimate fuel k_values (Some m)
            = Some (Raise ValueError).
Proof.
  destruct Hbig as (k0 & ps0 & Hk0 & Hps0 & Hm).
  assert (k_values ≠ []) as Hne by (intros ->; by apply elem_of_nil in Hk0).
  destruct (py_max_spec k_values Hne) as (kmax & Hmax & Hin & Hle).
  destruct (first_k_primes_result estimate kmax Hest)
    as (fuel0 & ps & Hrun & _ & Hps).
  { specialize (Hpos kmax Hin). lia. }
  destruct (split_at_first
              (λ k, m < primorial_from_primes (slice_to ps k)) k_values)
    as (pre & z & post & Hks & Hz & Hpre).
  { exists k0. split; [done|].
    destruct (compute_row ps kmax Hps None [] k0) as (Hpk & _); [|done|].
    - split; [by apply Hpos|by apply Hle].
    - by rewrite (is_first_k_primes_unique _ _ _ Hpk Hps0). }
  exists fuel0. intros fuel Hfuel. unfold compute_table.
  rewrite Hmax, (Hrun fuel Hfuel). cbv beta iota. f_equal. rewrite Hks.
  apply for_in_raises_at.
  - intros rows k Hk. eexists.
    apply (compute_row ps kmax Hps (Some m) rows k).
    + assert (k ∈ k_values) by (rewrite Hks, elem_of_app; auto).
      split; [by apply Hpos|by apply Hle].
    + intros m' [= <-]. specialize (Hpre k Hk). lia.
  - intros rows. simpl. by destruct (Z.ltb_spec m
      (primorial_from_primes (slice_to ps z))); [|lia].
Qed.

Lemma compute_table_maxN_exceeded_witness :
  ∃ fuel0 : nat,
    ∀ fuel, (fuel0 ≤ fuel)%nat →
            compute_table (λ _, 22) fuel [1; 2] (Some 5)
            = Some (Raise ValueError).
Proof.
  apply compute_table_maxN_exceeded; [intros; lia| |].
  - intros k Hk. repeat (apply elem_of_cons in Hk as [->|Hk]; [lia|]).
    by apply elem_of_nil in Hk.
  - exists 2, [2; 3]. split_and!; [|apply first_2_primes|done].
    apply elem_of_cons. right. by left.
Defined.

(** * Further properties of lpf_symmetry_verification.py *)

Section more_lpf.

Context {O : Sympy.Ops} {L : Sympy.Laws O}.

(** From 2 on, [lpf] returns the least prime divisor. *)
Lemma lpf_least (n : Z) :
  2 ≤ n →
  ∃ p, lpf n = Ok (Some p) ∧ Z.prime p ∧ (p | n) ∧
       ∀ q, Z.prime q → (q | n) → p ≤ q.
Proof.
  intros Hn. destruct (decide (Z.prime n)) as [Hp|Hnp].
  - exists n. split_and!; [by apply lpf_prime|done|apply Z.divide_refl|].
    intros q Hq Hdiv.
    rewrite (prime_divisor_eq n q Hp (Z.prime_ge_2 q Hq) Hdiv). lia.
  - by apply lpf_composite.
Qed.

Lemma lpf_iff (n q : Z) :
  2 ≤ n →
  lpf n = Ok (Some q) ↔
  Z.prime q ∧ (q | n) ∧ ∀ q', Z.prime q' → (q' | n) → q ≤ q'.
Proof.
  intros Hn. destruct (lpf_least n Hn) as (p & Hrun & Hp & Hdiv & Hmin).
  rewrite Hrun. split.
  - intros [= <-]. done.
  - intros (Hq & Hqn & Hqmin). do 2 f_equal.
    specialize (Hmin q Hq Hqn). specialize (Hqmin p Hp Hdiv). lia.
Qed.

(** For a primorial [N] and one of its prime factors [q], [x] and
    [N - x] have least prime factor [q] together. *)
Lemma lpf_mirror (k : nat) (ps : list Z) (q x : Z) :
  is_first_k_primes k ps → q ∈ ps → 2 ≤ x → 2 ≤ list_prod ps - x →
  lpf x = Ok (Some q) → lpf (list_prod ps - x) = Ok (Some q).
Proof.
  intros (_ & _ & Hprime & Hclosed) Hq Hx Hy.
  rewrite !lpf_iff by done. intros (Hqp & Hqx & Hmin).
  assert (∀ p, p ∈ ps → (p | list_prod ps)) as Hdiv
    by (intros p Hp; by apply divide_list_prod).
  split_and!; [done|by apply Z.divide_sub_r; [apply Hdiv|]|].
  intros q' Hq' Hq'y. destruct (Z.le_gt_cases q q') as [|Hlt]; [done|].
  exfalso. assert (q' ∈ ps) as Hin by (by apply (Hclosed q)).
  assert (q' | x) as Hq'x.
  { replace x with (list_prod ps - (list_prod ps - x)) by lia.
    apply Z.divide_sub_r; [by apply Hdiv|done]. }
  specialize (Hmin q' Hq' Hq'x). lia.
Qed.

End more_lpf.

(** From 2 on, [lpf n] is a number [p] of [2..n] that divides [n] and is
    its own [lpf]; it is [n] itself or at most the square root of [n],
    and it is 2 when [n] is even. *)
Theorem lpf_divides_and_is_fixed (O : Sympy.Ops) (L : Sympy.Laws O)
    (n : Z) (Hn : 2 ≤ n) :
  ∃ p, lpf n = Ok (Some p) ∧ 2 ≤ p ≤ n ∧ (p | n) ∧
       lpf p = Ok (Some p) ∧
       (p = n ∨ p * p ≤ n) ∧
       (Z.Even n → p = 2).
Proof.
  destruct (lpf_least n Hn) as (p & Hrun & Hp & Hdiv & Hmin).
  pose proof (Z.prime_ge_2 p Hp).
  exists p. split_and!; [done|done| |done|by apply lpf_prime| |].
  - apply Z.divide_pos_le in Hdiv; lia.
  - destruct (decide (Z.prime n)) as [Hnp|Hnp].
    { left. by apply (prime_divisor_eq n p). }
    right. destruct (small_divisor n ltac:(lia) Hnp) as (s & Hs & Hss & Hsn).
    destruct (prime_divisor_exists s Hs) as (q & Hq & Hqs).
    assert (p ≤ q) by (apply Hmin; [done|by etransitivity]).
    assert (q ≤ s) by (apply Z.divide_pos_le; [lia|done]). nia.
  - intros [c Hc]. assert (p ≤ 2); [|lia].
    apply Hmin; [apply Z.prime_2|]. exists c. lia.
Qed.

Lemma lpf_divides_and_is_fixed_witness :
  ∃ p, @lpf Reference.ops 45 = Ok (Some p) ∧ 2 ≤ p ≤ 45 ∧ (p | 45) ∧
       @lpf Reference.ops p = Ok (Some p) ∧
       (p = 45 ∨ p * p ≤ 45) ∧
       (Z.Even 45 → p = 2).
Proof. apply (lpf_divides_and_is_fixed Reference.ops _ 45). lia. Defined.

(** ** What the frequency tables hold *)

Section counter_lookup.

Implicit Types (m : gmap (option Z) nat) (x y : option Z)
  (l : list (option Z)).

Local Abbreviation bump := (λ m x, <[x := S (default O (m !! x))]> m).

Lemma occurrences_cons x y l :
  occurrences x (y :: l)
  = ((if decide (y = x) then 1 else 0) + occurrences x l)%nat.
Proof. unfold occurrences. rewrite filter_cons. by case_decide. Qed.

Lemma lookup_foldl_bump m l x :
  foldl bump m l !! x
  = if decide (occurrences x l = O) then m !! x
    else Some (default O (m !! x) + occurrences x l)%nat.
Proof.
  revert m. induction l as [|y l IH]; intros m; [done|].
  cbn [foldl]. rewrite IH, occurrences_cons.
  destruct (decide (y = x)) as [->|Hne].
  - rewrite lookup_insert_eq.
    repeat case_decide; try lia; simpl; f_equal; lia.
  - rewrite lookup_insert_ne by done. done.
Qed.

(** A key that occurs [c > 0] times is stored with [c]; one that does not
    occur is absent. *)
Lemma lookup_Counter l x : Counter l !! x = stored (occurrences x l).
Proof.
  unfold Counter, stored. rewrite lookup_foldl_bump, lookup_empty.
  by case_decide.
Qed.

(** Occurrences in a list of results are occurrences of arguments. *)
Lemma occurrences_Forall2 (f : Z → result (option Z)) (xs : list Z) l x :
  Forall2 (λ a b, f a = Ok b) xs l →
  occurrences x l = length (filter (λ a, f a = Ok x) xs).
Proof.
  induction 1 as [|a b xs l Hab _ IH]; [done|].
  rewrite occurrences_cons, filter_cons, IH, Hab.
  destruct (decide (b = x)) as [->|Hne].
  - by rewrite decide_True.
  - by rewrite decide_False by congruence.
Qed.

Lemma filter_ext_in {A} (P Q : A → Prop)
    `{!∀ a, Decision (P a)} `{!∀ a, Decision (Q a)} (l : list A) :
  (∀ a, a ∈ l → P a ↔ Q a) → filter P l = filter Q l.
Proof.
  induction l as [|a l IH]; intros Hext; [done|].
  rewrite !filter_cons, IH by (intros b Hb; apply Hext; by right).
  assert (P a ↔ Q a) as Ha by (apply Hext; by left).
  destruct (decide (P a)), (decide (Q a)); tauto.
Qed.

End counter_lookup.

(** ** The scan, value by value *)

Section scan_values.

Context {O : Sympy.Ops} {L : Sympy.Laws O}.

(** The two lists hold [lpf x] and [lpf (N - x)] for the [x] of the
    range, in order. *)
Lemma lpf_scan_values (N : Z) (verbose : bool) :
  ∃ ls rs, lpf_scan N verbose = Ok (ls, rs) ∧
           Forall2 (λ x a, lpf x = Ok a) (range 3 (N `div` 2) 1) ls ∧
           Forall2 (λ x b, lpf (N - x) = Ok b) (range 3 (N `div` 2) 1) rs.
Proof.
  unfold lpf_scan.
  edestruct (for_in_invariant
    (λ (done : list Z) (s : list (option Z) * list (option Z)),
       Forall2 (λ x a, lpf x = Ok a) done (s.1) ∧
       Forall2 (λ x b, lpf (N - x) = Ok b) done (s.2)))
    as ([ls rs] & Hrun & Hinv); [| |exists ls, rs; split; [exact Hrun|]].
  - simpl. split; apply Forall2_nil_2.
  - intros done x rest [ls rs] Hxs (Hl & Hr). simpl in *.
    assert (x ∈ range 3 (N `div` 2) 1) as Hx.
    { rewrite Hxs, elem_of_app, elem_of_cons. auto. }
    apply elem_of_range in Hx as [Hx _]; [|lia].
    pose proof (Z.mul_div_le N 2 ltac:(lia)).
    destruct (lpf_defined x ltac:(lia)) as (p & Hp).
    destruct (lpf_defined (N - x) ltac:(lia)) as (q & Hq).
    rewrite Hp, Hq. simpl. rewrite andb_false_r.
    eexists. split; [done|]. simpl.
    split; (apply Forall2_app; [done|]); by apply Forall2_cons_2.
  - done.
Qed.

(** The run of [verify_lpf_symmetry] for [k >= 3]: the tables returned
    are the frequency tables of the two scanned lists. *)
Lemma verify_lpf_symmetry_run (k : Z) (verbose : bool) :
  3 ≤ k →
  ∃ r N ls rs,
    verify_lpf_symmetry k verbose = Ok r ∧
    Sympy.primorial k = Ok N ∧ sym_N r = N ∧
    lpf_scan N verbose = Ok (ls, rs) ∧
    left_counts r = Counter ls ∧ right_counts r = Counter rs.
Proof.
  intros Hk. unfold verify_lpf_symmetry.
  destruct (primorial_ge_8 k Hk) as (N & HN & HN8). rewrite HN.
  destruct (Sympy.prime_spec k ltac:(lia)) as (ps & p & _ & _ & ->).
  cbn [mbind result_bind].
  destruct (lpf_scan_spec N verbose) as (ls & rs & Hscan & Hl & Hr & Hnl & Hnr).
  rewrite Hscan. cbn [mbind result_bind].
  assert (4 ≤ N `div` 2) by (apply Z.div_le_lower_bound; lia).
  unfold all_lpfs.
  rewrite bool_decide_eq_false_2; [simpl|].
  2:{ rewrite elem_of_union, !dom_Counter. tauto. }
  assert (size (dom (Counter ls) ∪ dom (Counter rs)) ≠ 0%nat) as Hsize.
  { apply size_non_empty_iff. destruct ls as [|x ls]; [simpl in Hl; lia|].
    assert (x ∈ dom (Counter (x :: ls))) by (apply dom_Counter; by left).
    set_solver. }
  destruct (Z.eqb_spec (30 `min` Z.of_nat
              (size (dom (Counter ls) ∪ dom (Counter rs)))) 0); [lia|].
  rewrite andb_false_r. simpl.
  eexists _, N, ls, rs. split_and!; done.
Qed.

End scan_values.

(** For [k >= 3], with [N] the primorial of [k]: the left table stores
    for every key the number of [x] in [3..N//2 - 1] with [lpf x] equal to
    that key, the right table the number of those with [lpf (N - x)] equal
    to it; a key that never occurs is absent. *)
Theorem lpf_tables_count_the_scan (O : Sympy.Ops) (L : Sympy.Laws O)
    (k : Z) (verbose : bool) (Hk : 3 ≤ k) :
  ∃ r N,
    verify_lpf_symmetry k verbose = Ok r ∧ Sympy.primorial k = Ok N ∧
    ∀ key,
      left_counts r !! key
      = stored (length (filter (λ x, lpf x = Ok key)
                          (range 3 (N `div` 2) 1))) ∧
      right_counts r !! key
      = stored (length (filter (λ x, lpf (N - x) = Ok key)
                          (range 3 (N `div` 2) 1))).
Proof.
  destruct (verify_lpf_symmetry_run k verbose Hk)
    as (r & N & ls & rs & Hrun & HN & _ & Hscan & Hlc & Hrc).
  destruct (lpf_scan_values N verbose) as (ls' & rs' & Hscan' & Hls & Hrs).
  assert (ls' = ls ∧ rs' = rs) as [-> ->] by (split; congruence).
  exists r, N. split_and!; [done..|]. intros key.
  rewrite Hlc, Hrc, !lookup_Counter.
  by rewrite (occurrences_Forall2 _ _ _ _ Hls),
             (occurrences_Forall2 _ _ _ _ Hrs).
Qed.

Lemma lpf_tables_count_the_scan_witness :
  ∃ r N,
    @verify_lpf_symmetry Reference.ops 3 false = Ok r ∧
    Reference.primorial 3 = Ok N ∧
    ∀ key,
      left_counts r !! key
      = stored (length (filter (λ x, @lpf Reference.ops x = Ok key)
                          (range 3 (N `div` 2) 1))) ∧
      right_counts r !! key
      = stored (length (filter (λ x, @lpf Reference.ops (N - x) = Ok key)
                          (range 3 (N `div` 2) 1))).
Proof. apply (lpf_tables_count_the_scan Reference.ops _ 3 false). lia. Defined.

(** The pairing symmetry the script looks for, where it is exact: for
    [k >= 3] and every prime [q] among the first [k] primes (the prime
    factors of the primorial), the left and the right table store the
    same count for [q]. *)
Theorem lpf_counts_agree_on_primorial_factors
    (O : Sympy.Ops) (L : Sympy.Laws O)
    (k : Z) (verbose : bool) (Hk : 3 ≤ k) :
  ∃ r, verify_lpf_symmetry k verbose = Ok r ∧
       ∀ ps q, is_first_k_primes (Z.to_nat k) ps → q ∈ ps →
               left_counts r !! Some q = right_counts r !! Some q.
Proof.
  destruct (verify_lpf_symmetry_run k verbose Hk)
    as (r & N & ls & rs & Hrun & HN & _ & Hscan & Hlc & Hrc).
  destruct (lpf_scan_values N verbose) as (ls' & rs' & Hscan' & Hls & Hrs).
  assert (ls' = ls ∧ rs' = rs) as [-> ->] by (split; congruence).
  exists r. split; [done|]. intros ps q Hps Hq. rewrite Hlc, Hrc.
  destruct (Sympy.primorial_spec k ltac:(lia)) as (ps0 & Hps0 & HN0).
  rewrite (is_first_k_primes_unique _ _ _ Hps0 Hps) in HN0.
  assert (N = list_prod ps) as -> by congruence.
  rewrite !lookup_Counter.
  rewrite (occurrences_Forall2 _ _ _ _ Hls),
          (occurrences_Forall2 _ _ _ _ Hrs).
  do 2 f_equal. apply filter_ext_in.
  intros x [Hx _]%elem_of_range; [|lia].
  pose proof (Z.mul_div_le (list_prod ps) 2 ltac:(lia)).
  split; intros Hlpf.
  - apply (lpf_mirror (Z.to_nat k)); [done..|lia|lia|done].
  - replace x with (list_prod ps - (list_prod ps - x)) by lia.
    apply (lpf_mirror (Z.to_nat k)); [done..|lia|lia|done].
Qed.

Lemma lpf_counts_agree_on_primorial_factors_witness :
  ∃ r, @verify_lpf_symmetry Reference.ops 3 false = Ok r ∧
       ∀ ps q, is_first_k_primes (Z.to_nat 3) ps → q ∈ ps →
               left_counts r !! Some q = right_counts r !! Some q.
Proof.
  apply (lpf_counts_agree_on_primorial_factors Reference.ops _ 3 false). lia.
Defined.

(** For [k >= 3] every key of the two frequency tables is a prime below
    the primorial: [None] is never a key. *)
Theorem lpf_table_keys_are_primes (O : Sympy.Ops) (L : Sympy.Laws O)
    (k : Z) (verbose : bool) (Hk : 3 ≤ k) :
  ∃ r, verify_lpf_symmetry k verbose = Ok r ∧
       ∀ key, key ∈ dom (left_counts r) ∪ dom (right_counts r) →
              ∃ q, key = Some q ∧ Z.prime q ∧ q < sym_N r.
Proof.
  destruct (verify_lpf_symmetry_run k verbose Hk)
    as (r & N & ls & rs & Hrun & HN & HrN & Hscan & Hlc & Hrc).
  destruct (lpf_scan_values N verbose) as (ls' & rs' & Hscan' & Hls & Hrs).
  assert (ls' = ls ∧ rs' = rs) as [-> ->] by (split; congruence).
  assert (∀ (f : Z → Z) l key,
            (∀ x, 3 ≤ x < N `div` 2 → 2 ≤ f x < N) →
            Forall2 (λ x b, lpf (f x) = Ok b) (range 3 (N `div` 2) 1) l →
            key ∈ l → ∃ q, key = Some q ∧ Z.prime q ∧ q < N) as Hkeys.
  { intros f l key Hf Hall Hkey.
    apply list_elem_of_lookup in Hkey as (i & Hi).
    destruct (Forall2_lookup_r _ _ _ _ _ Hall Hi) as (x & Hx & Hlpf).
    apply list_elem_of_lookup_2, elem_of_range in Hx as [Hx _]; [|lia].
    specialize (Hf x ltac:(lia)).
    destruct (lpf_least (f x) ltac:(lia)) as (q & Hq & Hprime & Hdiv & _).
    exists q. split_and!; [congruence|done|].
    apply Z.divide_pos_le in Hdiv; lia. }
  exists r. split; [done|]. intros key.
  pose proof (Z.mul_div_le N 2 ltac:(lia)).
  rewrite HrN, Hlc, Hrc, elem_of_union, !dom_Counter. intros [Hkey|Hkey].
  - apply (Hkeys (λ x, x) ls); [intros; lia|done..].
  - apply (Hkeys (λ x, N - x) rs); [intros; lia|done..].
Qed.

Lemma lpf_table_keys_are_primes_witness :
  ∃ r, @verify_lpf_symmetry Reference.ops 3 false = Ok r ∧
       ∀ key, key ∈ dom (left_counts r) ∪ dom (right_counts r) →
              ∃ q, key = Some q ∧ Z.prime q ∧ q < sym_N r.
Proof. apply (lpf_table_keys_are_primes Reference.ops _ 3 false). lia. Defined.

Lemma verify_lpf_symmetry_empty_verbose_witness :
  @verify_lpf_symmetry Reference.ops 1 true = Raise ZeroDivisionError.
Proof.
  apply (verify_lpf_symmetry_empty_verbose (O := Reference.ops)). by left.
Defined.

(** * Further properties of amplification_testing.py *)

(** ** The primes of an interval *)

Section primes_between.

Lemma elem_of_primes_between (a b p : Z) :
  p ∈ primes_between a b ↔ Z.prime p ∧ a ≤ p ≤ b.
Proof.
  unfold primes_between. rewrite list_elem_of_filter, elem_of_seqZ.
  split; intros [? ?]; (split; [done|lia]).
Qed.

Lemma primes_between_sorted (a b : Z) :
  StronglySorted Z.lt (primes_between a b).
Proof. apply StronglySorted_filter, StronglySorted_seqZ. Qed.

Lemma sorted_lists_eq (l1 l2 : list Z) :
  StronglySorted Z.lt l1 → StronglySorted Z.lt l2 →
  (∀ x, x ∈ l1 ↔ x ∈ l2) → l1 = l2.
Proof.
  intros H1 H2 Hiff.
  assert (AntiSymm eq Z.lt) by (intros x y ??; lia).
  apply (StronglySorted_unique Z.lt); [done..|].
  apply NoDup_Permutation; [by apply StronglySorted_lt_NoDup..|done].
Qed.

Lemma primes_between_empty (a b : Z) : b < a → primes_between a b = [].
Proof. intros Hab. unfold primes_between. by rewrite seqZ_nil by lia. Qed.

(** From a non-prime [p] nothing is lost by jumping to the next prime. *)
Lemma primes_between_skip (p p' b : Z) :
  ¬ Z.prime p → p < p' → (∀ q, Z.prime q → p < q → p' ≤ q) →
  primes_between p b = primes_between p' b.
Proof.
  intros Hnp Hlt Hmin.
  apply sorted_lists_eq; [apply primes_between_sorted..|].
  intros q. rewrite !elem_of_primes_between. split; intros [Hq Hr].
  - split; [done|]. assert (q ≠ p) by congruence.
    specialize (Hmin q Hq ltac:(lia)). lia.
  - split; [done|lia].
Qed.

(** From a prime [p <= b] the list starts with [p] and goes on from the
    next prime. *)
Lemma primes_between_cons (p p' b : Z) :
  Z.prime p → p ≤ b → p < p' → (∀ q, Z.prime q → p < q → p' ≤ q) →
  primes_between p b = p :: primes_between p' b.
Proof.
  intros Hp Hpb Hlt Hmin. apply sorted_lists_eq.
  - apply primes_between_sorted.
  - constructor; [apply primes_between_sorted|].
    apply Forall_forall. intros q Hq%elem_of_primes_between. lia.
  - intros q. rewrite elem_of_cons, !elem_of_primes_between.
    split.
    + intros [Hq Hr]. destruct (decide (q = p)) as [|Hne]; [by left|right].
      split; [done|]. specialize (Hmin q Hq ltac:(lia)). lia.
    + intros [->|[Hq Hr]]; (split; [done|lia]).
Qed.

End primes_between.

(** ** The sampling loop, exactly *)

Section sampling_exact.

Context {O : Sympy.Ops} {L : Sympy.Laws O}.

Variables N p_end : Z.
Variable max_primes : option Z.

Lemma room_step (tested : Z) (n : nat) :
  0 ≤ tested →
  (∀ m, max_primes = Some m → 0 < m → tested < m) →
  room max_primes tested (S n)
  = S (if cap_reached max_primes (tested + 1) then 0%nat
       else room max_primes (tested + 1) n) ∧
  (cap_reached max_primes (tested + 1) = false →
   ∀ m, max_primes = Some m → 0 < m → tested + 1 < m).
Proof.
  intros Htested Hcap. unfold room, cap_reached, truthy.
  destruct max_primes as [m|]; [|done].
  specialize (Hcap m eq_refl).
  destruct (Z.eqb_spec m 0); simpl; [split; [done|]; intros; simplify_eq; lia|].
  destruct (Z.ltb_spec m 0), (Z.leb_spec m (tested + 1)); simpl;
    (split; [lia|]); intros; simplify_eq; lia.
Qed.

Lemma sampling_loop_exact (fuel : nat) (p count tested : Z) :
  (Z.to_nat (p_end + 1 - p) < fuel)%nat →
  0 ≤ tested →
  (∀ m, max_primes = Some m → 0 < m → tested < m) →
  sampling_loop fuel N p_end max_primes p count tested
  = Some
      (count + Z.of_nat (length (filter (λ q, Z.prime (N - q))
         (take (room max_primes tested (length (primes_between p p_end)))
               (primes_between p p_end)))),
       tested + Z.of_nat (length
         (take (room max_primes tested (length (primes_between p p_end)))
               (primes_between p p_end)))).
Proof.
  revert p count tested.
  induction fuel as [|fuel IH]; intros p count tested Hfuel Htested Hcap; [lia|].
  simpl. destruct (Z.leb_spec p p_end) as [Hp|Hp].
  2:{ rewrite primes_between_empty by lia. rewrite take_nil. simpl.
      do 2 f_equal; lia. }
  destruct (Sympy.nextprime_spec p) as (Hnext & _ & Hmin).
  destruct (Sympy.isprime p) eqn:Hisp; simpl.
  - apply Sympy.isprime_spec in Hisp.
    rewrite (primes_between_cons p (Sympy.nextprime p)) by done.
    rewrite length_cons.
    destruct (room_step tested
                (length (primes_between (Sympy.nextprime p) p_end))
                Htested Hcap) as [-> Hcap'].
    cbn [take]. rewrite filter_cons. cbn [length].
    assert ((0 <? N - p) && Sympy.isprime (N - p)
            = bool_decide (Z.prime (N - p))) as ->.
    { apply eq_true_iff_eq.
      rewrite andb_true_iff, Z.ltb_lt, Sympy.isprime_spec,
        bool_decide_eq_true.
      split; [tauto|]. intros Hq. pose proof (Z.prime_ge_2 _ Hq).
      split; [lia|done]. }
    destruct (cap_reached max_primes (tested + 1)).
    + rewrite take_0.
      destruct (decide (Z.prime (N - p))).
      * rewrite bool_decide_eq_true_2 by done. simpl. do 2 f_equal; lia.
      * rewrite bool_decide_eq_false_2 by done. simpl. do 2 f_equal; lia.
    + rewrite IH; [|lia|lia|by apply Hcap'].
      destruct (decide (Z.prime (N - p))).
      * rewrite bool_decide_eq_true_2 by done. cbn [length].
        do 2 f_equal; lia.
      * rewrite bool_decide_eq_false_2 by done. do 2 f_equal; lia.
  - assert (¬ Z.prime p) as Hnp.
    { rewrite <- Sympy.isprime_spec. congruence. }
    rewrite (primes_between_skip p (Sympy.nextprime p)) by done.
    apply IH; [lia|done..].
Qed.

End sampling_exact.

(** For an even [N] the sampling counter tests the primes of
    [p_start..p_end] in increasing order: all of them without a cap (or
    with the cap 0), the first [max_primes] of them with a positive cap,
    the first one only with a negative cap.  [tested] is their number and
    [count] the number of those [p] with [N - p] prime. *)
Theorem sampling_counts_the_primes_tested (O : Sympy.Ops) (L : Sympy.Laws O)
    (fuel : nat) (N p_start p_end : Z) (max_primes : option Z)
    (Heven : N `mod` 2 = 0)
    (Hfuel : (Z.to_nat (p_end + 1 - p_start) < fuel)%nat) :
  let ps := take (room max_primes 0 (length (primes_between p_start p_end)))
                 (primes_between p_start p_end) in
  count_goldbach_representations fuel N p_start p_end max_primes
  = Some (Ok (Z.of_nat (length (filter (λ p, Z.prime (N - p)) ps)),
              Z.of_nat (length ps))).
Proof.
  intros ps. unfold count_goldbach_representations. rewrite Heven. simpl.
  rewrite sampling_loop_exact; [done|done|done|]. intros; lia.
Qed.

Lemma sampling_counts_the_primes_tested_witness :
  let ps := take (room (Some 3) 0 (length (primes_between 7 50)))
                 (primes_between 7 50) in
  @count_goldbach_representations Reference.ops 50 30 7 50 (Some 3)
  = Some (Ok (Z.of_nat (length (filter (λ p, Z.prime (30 - p)) ps)),
              Z.of_nat (length ps))).
Proof.
  apply (sampling_counts_the_primes_tested Reference.ops _ 50 30 7 50);
    [reflexivity|vm_compute; lia].
Defined.

(** Raising a positive cap never lowers the outcome: with caps
    [1 <= m <= m'] on the same even [N] and range, both the number of
    primes tested and the number of representations found under [m] are at
    most those under [m']. *)
Theorem sampling_monotone_in_cap (O : Sympy.Ops) (L : Sympy.Laws O)
    (fuel : nat) (N p_start p_end m m' : Z)
    (Heven : N `mod` 2 = 0)
    (Hfuel : (Z.to_nat (p_end + 1 - p_start) < fuel)%nat)
    (Hm : 1 ≤ m ≤ m') :
  ∃ c t c' t',
    count_goldbach_representations fuel N p_start p_end (Some m)
    = Some (Ok (c, t)) ∧
    count_goldbach_representations fuel N p_start p_end (Some m')
    = Some (Ok (c', t')) ∧
    c ≤ c' ∧ t ≤ t'.
Proof.
  unfold count_goldbach_representations. rewrite Heven. simpl.
  rewrite !sampling_loop_exact by (done || intros; simplify_eq; lia).
  do 4 eexists. split_and!; [done..| |].
  - set (all := primes_between p_start p_end).
    set (a := room (Some m) 0 (length all)).
    set (a' := room (Some m') 0 (length all)).
    assert (a ≤ a')%nat as Ha.
    { unfold a, a', room. destruct (Z.eqb_spec m 0), (Z.eqb_spec m' 0); try lia.
      destruct (Z.ltb_spec m 0), (Z.ltb_spec m' 0); lia. }
    assert (take a all = take a (take a' all)) as ->
      by (rewrite take_take; f_equal; lia).
    rewrite <- (take_drop a (take a' all)) at 2.
    rewrite filter_app, length_app. lia.
  - rewrite !length_take. unfold room.
    destruct (Z.eqb_spec m 0), (Z.eqb_spec m' 0); try lia.
    destruct (Z.ltb_spec m 0), (Z.ltb_spec m' 0); lia.
Qed.

Lemma sampling_monotone_in_cap_witness :
  ∃ c t c' t',
    @count_goldbach_representations Reference.ops 50 30 7 50 (Some 2)
    = Some (Ok (c, t)) ∧
    @count_goldbach_representations Reference.ops 50 30 7 50 (Some 4)
    = Some (Ok (c', t')) ∧
    c ≤ c' ∧ t ≤ t'.
Proof.
  apply (sampling_monotone_in_cap Reference.ops _ 50 30 7 50 2 4);
    [reflexivity|vm_compute; lia|lia].
Defined.

(** The two counters agree: on an even [N >= 4], sampling the whole range
    [2..N // 2] without a cap finds as many representations as the exact
    count on the sieved table, namely [G(N)]. *)
Theorem sampling_agrees_with_exact_count (O : Sympy.Ops) (L : Sympy.Laws O)
    (fuel : nat) (N : Z) (HN : 4 ≤ N) (Heven : N `mod` 2 = 0)
    (Hfuel : (Z.to_nat (N `div` 2 + 1 - 2) < fuel)%nat) :
  ∃ tested,
    count_goldbach_representations fuel N 2 (N `div` 2) None
    = Some (Ok (Z.of_nat (length (goldbach_pairs N)), tested)) ∧
    (t ← sieve_is_prime N; goldbach_count N t)
    = Ok (Z.of_nat (length (goldbach_pairs N))).
Proof.
  eexists. split; [|apply goldbach_count_sieved; [lia|done]].
  unfold count_goldbach_representations. rewrite Heven. simpl.
  rewrite sampling_loop_exact by (done || intros; simplify_eq).
  simpl. rewrite firstn_all.
  assert (filter (λ q, Z.prime (N - q)) (primes_between 2 (N `div` 2))
          = goldbach_pairs N) as ->; [|done].
  unfold goldbach_pairs. apply sorted_lists_eq.
  - apply StronglySorted_filter, primes_between_sorted.
  - apply StronglySorted_filter, StronglySorted_seqZ.
  - intros p. rewrite !list_elem_of_filter, elem_of_primes_between,
      elem_of_seqZ.
    split.
    + intros (Hq & Hp & Hr). split; [done|lia].
    + intros ([Hp Hq] & Hr). pose proof (Z.prime_ge_2 p Hp).
      split_and!; [done..|lia|lia].
Qed.

Lemma sampling_agrees_with_exact_count_witness :
  ∃ tested,
    @count_goldbach_representations Reference.ops 20 30 2 (30 `div` 2) None
    = Some (Ok (Z.of_nat (length (goldbach_pairs 30)), tested)) ∧
    (t ← sieve_is_prime 30; goldbach_count 30 t)
    = Ok (Z.of_nat (length (goldbach_pairs 30))).
Proof.
  apply (sampling_agrees_with_exact_count Reference.ops _ 20 30);
    [lia|reflexivity|vm_compute; lia].
Defined.

(** ** The whole test *)

Section amplification.

Context {O : Sympy.Ops} {L : Sympy.Laws O}.
Context {F : Double.Ops} {FL : Double.Laws F}.

(** From a count and a [p_k >= 1] the figures are computed without an
    exception, and the dict returned records the arguments. *)
Lemma amplification_summary_returns (k N pk actual_count tested : Z) :
  1 ≤ pk →
  ∃ r, amplification_summary k N pk actual_count tested = Ok r ∧
       amp_k r = k ∧ amp_N r = N ∧ p_k r = pk ∧
       representations r = actual_count ∧ primes_tested r = tested ∧
       success r = bool_decide (1 ≤ actual_count).
Proof.
  intros Hpk. unfold amplification_summary.
  assert (∃ e, theoretical_baseline N tested = Ok e) as [e ->].
  { unfold theoretical_baseline, math_log, truediv.
    destruct (Z.leb_spec N 2); [by eexists|].
    destruct (Z.leb_spec N 0); [lia|]. cbn [mbind result_bind].
    rewrite Double.log_nonzero by lia. by eexists. }
  cbn [mbind result_bind].
  assert (∃ a, (if Double.gt0 e
                then truediv (Double.of_int actual_count) e
                else Ok Double.inf) = Ok a) as [a ->].
  { destruct (Double.gt0 e) eqn:He; [|by eexists].
    unfold truediv. rewrite (Double.gt0_nonzero e He). by eexists. }
  cbn [mbind result_bind]. unfold math_log.
  destruct (Z.leb_spec pk 0); [lia|]. cbn [mbind result_bind].
  eexists. split; [done|]. done.
Qed.

(** The primorial of [k >= 1] is even. *)
Lemma primorial_even (k : Z) :
  1 ≤ k → ∃ N, Sympy.primorial k = Ok N ∧ N `mod` 2 = 0.
Proof.
  intros Hk. destruct (Sympy.primorial_spec k Hk) as (ps & Hps & ->).
  eexists. split; [done|]. apply Z.mod_divide; [lia|].
  apply divide_list_prod.
  apply (first_primes_contain_2 (Z.to_nat k)); [done|lia].
Qed.

(** The [k]-th prime is a prime. *)
Lemma prime_is_prime (k : Z) :
  1 ≤ k → ∃ p, Sympy.prime k = Ok p ∧ Z.prime p.
Proof.
  intros Hk.
  destruct (Sympy.prime_spec k Hk) as (ps & p & (_ & _ & Hp & _) & Hlast & ->).
  exists p. split; [done|]. apply Hp.
  apply last_Some in Hlast as [l' ->]. apply elem_of_app. right.
  by apply list_elem_of_singleton.
Qed.

End amplification.

(** For every [k >= 1] the test returns once the sampling loop has fuel
    for its range [p_start..lambda_factor * p_start]: no call raises, and
    the dict holds [k], the primorial [N] of [k], the [k]-th prime, and
    the pair the sampling counter returns on [N] from the [(k + 1)]-th
    prime with the cap [num_samples].  It reports no more representations
    than primes tested, no more primes than a positive [num_samples], and
    success exactly when a representation was found. *)
Theorem test_primorial_amplification_returns
    (O : Sympy.Ops) (L : Sympy.Laws O) (F : Double.Ops) (FL : Double.Laws F)
    (k num_samples lambda_factor : Z) (Hk : 1 ≤ k) :
  ∃ N pk p_start r,
    Sympy.primorial k = Ok N ∧
    Sympy.prime k = Ok pk ∧
    Sympy.prime (k + 1) = Ok p_start ∧
    amp_k r = k ∧ amp_N r = N ∧ p_k r = pk ∧
    0 ≤ representations r ≤ primes_tested r ∧
    (1 ≤ num_samples → primes_tested r ≤ num_samples) ∧
    (success r = true ↔ 1 ≤ representations r) ∧
    ∀ fuel,
      (Z.to_nat (lambda_factor * p_start + 1 - p_start) < fuel)%nat →
      count_goldbach_representations fuel N p_start
        (lambda_factor * p_start) (Some num_samples)
      = Some (Ok (representations r, primes_tested r)) ∧
      test_primorial_amplification fuel k num_samples lambda_factor
      = Some (Ok r).
Proof.
  destruct (primorial_even k Hk) as (N & HN & Heven).
  destruct (prime_is_prime k Hk) as (pk & Hpk & Hprime).
  destruct (prime_is_prime (k + 1) ltac:(lia)) as (p_start & Hst & _).
  pose proof (Z.prime_ge_2 pk Hprime).
  set (p_end := lambda_factor * p_start).
  set (fuel0 := S (Z.to_nat (p_end + 1 - p_start))).
  destruct (sampling_loop_spec N p_end (Some num_samples) fuel0 p_start 0 0
              ltac:(lia)) as (c & t & Hrun & Hc & Ht & Hct & Hcap).
  destruct (amplification_summary_returns k N pk c t ltac:(lia))
    as (r & Hr & Hrk & HrN & Hrp & Hrc & Hrt & Hrs).
  exists N, pk, p_start, r. rewrite Hrc, Hrt, Hrs.
  split_and!; [done..|lia|lia| | |].
  - intros Hm. apply (Hcap num_samples); [done|lia|lia].
  - apply bool_decide_eq_true.
  - intros fuel Hfuel.
    assert (sampling_loop fuel N p_end (Some num_samples) p_start 0 0
            = Some (c, t)) as Hloop.
    { rewrite <- Hrun. unfold fuel0.
      rewrite !sampling_loop_exact; [done|lia|lia| |lia|lia| ];
        intros; simplify_eq; lia. }
    assert (count_goldbach_representations fuel N p_start p_end
              (Some num_samples) = Some (Ok (c, t))) as Hcount.
    { unfold count_goldbach_representations. rewrite Heven. simpl.
      by rewrite Hloop. }
    split; [done|]. unfold test_primorial_amplification.
    rewrite HN, Hpk, Hst. cbn [mbind result_bind].
    fold p_end. by rewrite Hcount, Hr.
Qed.

Lemma test_primorial_amplification_returns_witness :
  ∃ N pk p_start r,
    @Sympy.primorial Reference.ops 3 = Ok N ∧
    @Sympy.prime Reference.ops 3 = Ok pk ∧
    @Sympy.prime Reference.ops (3 + 1) = Ok p_start ∧
    amp_k r = 3 ∧ amp_N r = N ∧ p_k r = pk ∧
    0 ≤ representations r ≤ primes_tested r ∧
    (1 ≤ 5 → primes_tested r ≤ 5) ∧
    (success r = true ↔ 1 ≤ representations r) ∧
    ∀ fuel,
      (Z.to_nat (2 * p_start + 1 - p_start) < fuel)%nat →
      @count_goldbach_representations Reference.ops fuel N p_start
        (2 * p_start) (Some 5)
      = Some (Ok (representations r, primes_tested r)) ∧
      @test_primorial_amplification Reference.ops Rational.ops fuel 3 5 2
      = Some (Ok r).
Proof.
  apply (test_primorial_amplification_returns Reference.ops _ Rational.ops _
           3 5 2).
  lia.
Defined.
